(** * asva-executors: LadderExecutor and InfiniteLoader

    A shallow embedding of [LadderExecutor.run] (TypeScript) over a small
    model of the JavaScript promise runtime, and of the [InfiniteLoader]
    state machine.

    JavaScript is single threaded: a synchronous piece of code runs to
    completion, then the microtask queue (promise reactions) is drained.
    The world below carries the executor object, the promise objects that
    the code creates, the log of invocations of the wrapped command and the
    microtask queue.  Two kinds of things happen from outside: a caller
    calls [run], and the environment settles the promise that an
    invocation of the command returned.

    - The wrapped command is opaque: an invocation is logged with its
      parameters and yields a fresh pending promise, which the
      environment settles later, with a value or with an error.
    - A settlement is taken at the moment its reactions run: the
      reactions registered on the promise are queued in registration
      order and the queue is drained before the next event.  A call that
      a caller makes from a reaction of its own comes after the reactions
      of the executor, which were registered first, and is a later event.
    - Values are not thenables, so [resolve(v)] fulfils with [v]. *)

From Stdlib Require Import ZArith Lia List Bool.
From stdpp Require Import base list option.
Import ListNotations.

(** ** Promise runtime *)

Module Runtime.

(** The framework never inspects values, errors or parameters. *)
Definition Value := nat.
Definition Params := list Value.

(** Promise objects are identified by their allocation index. *)
Definition pid := nat.

Inductive settlement :=
| Fulfilled (v : Value)
| Rejected (e : Value).

Inductive status :=
| Pending
| Settled (o : settlement).

(** The three callbacks that the code registers with [then].
    - [OnSettle]: the bookkeeping of the base [Executor] for one run;
    - [LadderThen]: [() => { this.trigger && this.trigger(); this.trigger = null }],
      registered with [promise.then(f)], so it only has a fulfilment handler;
    - [ThenResolve q]: [.then(resolve)] where [resolve] settles promise [q];
      again only a fulfilment handler. *)
Inductive reaction :=
| OnSettle
| LadderThen
| ThenResolve (q : pid).

Record cell := Cell {
  c_status : status;
  c_reactions : list reaction
}.

(** A job of the microtask queue: a reaction and the settlement it reacts to. *)
Definition job := (reaction * settlement)%type.

Definition new_cell : cell := Cell Pending [].

End Runtime.
Import Runtime.

(** ** Executor (base class) *)

Module Executor.

(** Modelled from the spec: the fields of ExecutionState (section 3); the
    file Executor.ts of the base class is not among the sources. *)
Record ExecutionState := ExecState {
  isRunning : Z;
  runCount : Z;
  wasRun : bool;
  wasRunFine : bool;
  wasRunBad : bool;
  wasLastRunFine : bool
}.

Definition fresh : ExecutionState := ExecState 0 0 false false false false.

(** Modelled from the spec: the start of Executor.run (section 4.1),
    "On start: runCount += 1, isRunning += 1, wasRun = true". *)
Definition on_start (s : ExecutionState) : ExecutionState :=
  ExecState (isRunning s + 1) (runCount s + 1) true
            (wasRunFine s) (wasRunBad s) (wasLastRunFine s).

(** Modelled from the spec: the settlement of Executor.run (section 4.1),
    "On settle: isRunning -= 1; on success, wasRunFine = true,
    wasLastRunFine = true; on failure, wasRunBad = true,
    wasLastRunFine = false". *)
Definition on_settle (o : settlement) (s : ExecutionState) : ExecutionState :=
  match o with
  | Fulfilled _ =>
      ExecState (isRunning s - 1) (runCount s) (wasRun s) true (wasRunBad s) true
  | Rejected _ =>
      ExecState (isRunning s - 1) (runCount s) (wasRun s) (wasRunFine s) true false
  end.

End Executor.
Import Executor.

(** ** LadderExecutor *)

Module Ladder.

(** The arrow function stored in [this.trigger]:
    [() => this.run(...parameters).then(resolve)].  It captures the
    parameters of the queued call and the [resolve] of the promise
    handed to that caller. *)
Record closure := Closure {
  c_params : Params;
  c_resolve : pid
}.

Record world := World {
  state : ExecutionState;          (* fields inherited from Executor *)
  trigger : option closure;        (* trigger: Function | null = null *)
  heap : list cell;                (* promise objects, by identity *)
  calls : list (Params * pid);     (* invocations of the wrapped command *)
  mq : list job                    (* microtask queue *)
}.

Definition init : world := World fresh None [] [] [].

Definition set_state (s : ExecutionState) (w : world) : world :=
  World s (trigger w) (heap w) (calls w) (mq w).
Definition set_trigger (t : option closure) (w : world) : world :=
  World (state w) t (heap w) (calls w) (mq w).
Definition set_heap (h : list cell) (w : world) : world :=
  World (state w) (trigger w) h (calls w) (mq w).
Definition set_calls (cs : list (Params * pid)) (w : world) : world :=
  World (state w) (trigger w) (heap w) cs (mq w).
Definition set_mq (q : list job) (w : world) : world :=
  World (state w) (trigger w) (heap w) (calls w) q.

(** [new Promise(...)]: a fresh pending promise object. *)
Definition alloc (w : world) : pid * world :=
  (length (heap w), set_heap (heap w ++ [new_cell]) w).

(** [p.then(r)]: on a pending promise the reaction is appended to its
    list; on a settled one a job is queued at once.  The promise that
    [then] itself returns is dropped at both call sites of the source,
    so it is not allocated. *)
Definition then_ (p : pid) (r : reaction) (w : world) : world :=
  match heap w !! p with
  | Some (Cell Pending rs) => set_heap (<[p := Cell Pending (rs ++ [r])]> (heap w)) w
  | Some (Cell (Settled o) _) => set_mq (mq w ++ [(r, o)]) w
  | None => w
  end.

(** Settling a pending promise queues one job per registered reaction,
    in registration order; settling a settled promise does nothing. *)
Definition settle_promise (p : pid) (o : settlement) (w : world) : world :=
  match heap w !! p with
  | Some (Cell Pending rs) =>
      set_mq (mq w ++ map (fun r => (r, o)) rs)
             (set_heap (<[p := Cell (Settled o) []]> (heap w)) w)
  | _ => w
  end.

(** Modelled from the spec: Executor.run (section 4.1), whose file is not
    among the sources.  It "invokes the wrapped command unconditionally"
    and "returns the same deferred result the command produces"; the
    bookkeeping of the settlement is attached to that promise before it
    is returned, so that it runs before any reaction a subclass adds. *)
Definition super_run (ps : Params) (w : world) : pid * world :=
  let w1 := set_state (on_start (state w)) w in
  let '(p, w2) := alloc w1 in
  let w3 := set_calls (calls w2 ++ [(ps, p)]) w2 in
  (p, then_ p OnSettle w3).

(** [LadderExecutor.run], lines 16-29. *)
Definition run (ps : Params) (w : world) : pid * world :=
  if (isRunning (state w) =? 0)%Z then
    let '(promise, w1) := super_run ps w in
    (promise, then_ promise LadderThen w1)
  else
    let '(q, w1) := alloc w in
    (q, set_trigger (Some (Closure ps q)) w1).

(** Calling the stored arrow function: [this.run(...parameters).then(resolve)]. *)
Definition fire (c : closure) (w : world) : world :=
  let '(r, w1) := run (c_params c) w in
  then_ r (ThenResolve (c_resolve c)) w1.

(** Line 20: [this.trigger && this.trigger()]. *)
Definition call_trigger (w : world) : world :=
  match trigger w with
  | Some c => fire c w
  | None => w
  end.

(** Line 21: [this.trigger = null]. *)
Definition clear_trigger (w : world) : world := set_trigger None w.

(** The body of the callback of lines 19-22, statement by statement. *)
Definition ladder_then_body : list (world -> world) :=
  [call_trigger; clear_trigger].

Definition exec_body (body : list (world -> world)) (w : world) : world :=
  fold_left (fun acc stmt => stmt acc) body w.

(** The worlds seen after each statement of a body. *)
Fixpoint body_trace (body : list (world -> world)) (w : world) : list world :=
  match body with
  | [] => []
  | stmt :: rest => stmt w :: body_trace rest (stmt w)
  end.

Definition ladder_then (w : world) : world := exec_body ladder_then_body w.

(** One microtask.  Both callbacks of the source are fulfilment handlers:
    on a rejection [then] runs none of them (the promise that [then]
    returned is rejected, and nobody holds it). *)
Definition run_job (j : job) (w : world) : world :=
  match j with
  | (OnSettle, o) => set_state (on_settle o (state w)) w
  | (LadderThen, Fulfilled _) => ladder_then w
  | (LadderThen, Rejected _) => w
  | (ThenResolve q, Fulfilled v) => settle_promise q (Fulfilled v) w
  | (ThenResolve q, Rejected _) => w
  end.

(** Draining the microtask queue, first in first out. *)
Fixpoint drain (fuel : nat) (w : world) {struct fuel} : option world :=
  match mq w with
  | [] => Some w
  | j :: js =>
      match fuel with
      | O => None
      | S fuel' => drain fuel' (run_job j (set_mq js w))
      end
  end.

(** Every job comes from a reaction that was registered before, which
    bounds the jobs of one drain. *)
Definition registered (h : list cell) : nat :=
  list_sum (map (fun c => length (c_reactions c)) h).

Definition budget (w : world) : nat := length (mq w) + registered (heap w).

(** What happens from outside. *)
Inductive event :=
| Run (ps : Params)
| Settle (p : pid) (o : settlement).

Definition status_of (p : pid) (w : world) : option status :=
  c_status <$> heap w !! p.

Definition is_pending (p : pid) (w : world) : bool :=
  match status_of p w with
  | Some Pending => true
  | _ => false
  end.

Definition is_command_promise (p : pid) (w : world) : bool :=
  existsb (fun c => Nat.eqb (snd c) p) (calls w).

(** The environment settles only promises that the command returned and
    that are still pending. *)
Definition in_flight (p : pid) (w : world) : bool :=
  is_command_promise p w && is_pending p w.

Definition apply_event (e : event) (w : world) : option world :=
  match e with
  | Run ps => Some (snd (run ps w))
  | Settle p o => if in_flight p w then Some (settle_promise p o w) else None
  end.

Definition step (e : event) (w : world) : option world :=
  match apply_event e w with
  | Some w1 => drain (budget w1) w1
  | None => None
  end.

Fixpoint steps (es : list event) (w : world) : option world :=
  match es with
  | [] => Some w
  | e :: es' =>
      match step e w with
      | Some w1 => steps es' w1
      | None => None
      end
  end.

Definition reachable (w : world) : Prop :=
  exists es, steps es init = Some w.

(** The parameters of the invocations of the command, in order. *)
Definition invoked (w : world) : list Params := map fst (calls w).

End Ladder.
Import Ladder.

(** ** InfiniteLoader *)

Module Loader.

(** Modelled from the spec: the state machine of InfiniteLoader over
    idle, loading and refreshing (section 4.6); the file
    InfiniteLoader.ts is not among the sources, only its tests are. *)
Inductive phase :=
| Idle
| Loading
| Refreshing.

(** How the page request in flight settles. *)
Inductive outcome :=
| Page (elems : list Value)
| Failed.

(** Modelled from the spec: the state of InfiniteLoader (section 3), that
    is [items], [pointer], [perStep], [isFinished], the running and
    refreshing flags (here the phase) and the one pending-refresh slot.
    [requests] logs the page requests made to the command, as
    (pointer, perStep), like the counter of the test
    'handles multiple refreshes'. *)
Record loader := Loader_ {
  items : list Value;
  pointer : nat;
  perStep : nat;
  isFinished : bool;
  phase_of : phase;
  pendingRefresh : bool;
  requests : list (nat * nat)
}.

(** [new InfiniteLoader(command, perStep)]. *)
Definition create (per : nat) : loader := Loader_ [] 0 per false Idle false [].

Definition isRunning (l : loader) : bool :=
  match phase_of l with
  | Idle => false
  | _ => true
  end.

(** Modelled from the spec: "isRefreshing is true exactly while a
    refresh-tagged load is in flight or queued". *)
Definition isRefreshing (l : loader) : bool :=
  match phase_of l with
  | Refreshing => true
  | _ => pendingRefresh l
  end.

(** A page request at [pointer] with size [perStep], tagged [k]. *)
Definition request (k : phase) (l : loader) : loader :=
  Loader_ (items l) (pointer l) (perStep l) (isFinished l) k (pendingRefresh l)
          (requests l ++ [(pointer l, perStep l)]).

(** Modelled from the spec: InfiniteLoader.next (section 4.6): a no-op
    while running and once finished, otherwise a page request. *)
Definition next (l : loader) : loader :=
  if isRunning l || isFinished l then l else request Loading l.

(** Modelled from the spec: the start of a refresh (section 4.6), which
    "immediately clears items, resets pointer to zero, clears isFinished,
    and performs a load exactly like next() but tagged as refreshing".
    (The test 'refreshes' reads 20 items right after [refresh()], line 30;
    the wording of the spec is the one followed here.) *)
Definition start_refresh (l : loader) : loader :=
  request Refreshing
    (Loader_ [] 0 (perStep l) false (phase_of l) (pendingRefresh l) (requests l)).

(** Modelled from the spec: InfiniteLoader.refresh (section 4.6): when
    idle a refresh starts; while a load is running only the pending slot
    is written. *)
Definition refresh (l : loader) : loader :=
  if isRunning l
  then Loader_ (items l) (pointer l) (perStep l) (isFinished l) (phase_of l) true (requests l)
  else start_refresh l.

(** Modelled from the spec: a page that arrived (section 4.6): a load
    appends, a refresh overwrites; the pointer advances by the number of
    elements; a page shorter than perStep marks the loader finished. *)
Definition apply_page (k : phase) (elems : list Value) (l : loader) : loader :=
  Loader_ (match k with Refreshing => elems | _ => items l ++ elems end)
          (pointer l + length elems)
          (perStep l)
          (if length elems <? perStep l then true else isFinished l)
          (phase_of l) (pendingRefresh l) (requests l).

Definition finish (l : loader) : loader :=
  Loader_ (items l) (pointer l) (perStep l) (isFinished l) Idle (pendingRefresh l) (requests l).

Definition take_pending (l : loader) : loader :=
  Loader_ (items l) (pointer l) (perStep l) (isFinished l) (phase_of l) false (requests l).

(** Modelled from the spec: the settlement of the running load
    (section 4.6): the page is applied, the loader stops running, and "if
    a refresh was pending, a refresh starts immediately, the slot is
    cleared".  Without a load in flight there is nothing to settle. *)
Definition settle (o : outcome) (l : loader) : option loader :=
  match phase_of l with
  | Idle => None
  | k =>
      let l1 := match o with
                | Page elems => apply_page k elems l
                | Failed => l
                end in
      let l2 := finish l1 in
      Some (if pendingRefresh l2 then start_refresh (take_pending l2) else l2)
  end.

Inductive event :=
| Next
| Refresh
| Settle (o : outcome).

Definition step (e : event) (l : loader) : option loader :=
  match e with
  | Next => Some (next l)
  | Refresh => Some (refresh l)
  | Settle o => settle o l
  end.

Fixpoint steps (es : list event) (l : loader) : option loader :=
  match es with
  | [] => Some l
  | e :: es' =>
      match step e l with
      | Some l1 => steps es' l1
      | None => None
      end
  end.

Definition reachable (l : loader) : Prop :=
  exists per es, steps es (create per) = Some l.

(** Modelled from the spec: PointerRequestFactory.getPointerRequest(total)
    of the tests, a backing source with the elements 0 .. total-1
    (section 8); its file is not among the sources. *)
Definition pointer_request (total : nat) (ptr per : nat) : list Value :=
  firstn per (skipn ptr (seq 0 total)).

(** The request in flight is answered by the backing source. *)
Definition served (total : nat) (l : loader) : event :=
  match last (requests l) (0, 0) with
  | (ptr, per) => Settle (Page (pointer_request total ptr per))
  end.

Definition serve (total : nat) (l : loader) : option loader :=
  step (served total l) l.

(** While a load runs the loader is not finished. *)
Definition running_unfinished (l : loader) : Prop :=
  isRunning l = true -> isFinished l = false.

End Loader.

(** ** Invariants of LadderExecutor *)

Module Inv.

Definition quiet (c : cell) : Prop := c_reactions c = [].

(** What may follow the two reactions that every invocation in flight
    carries: nothing, or the [.then(resolve)] of the follow-up. *)
Definition tail_ok (n : nat) (tl : list reaction) : Prop :=
  tl = [] \/ exists q, tl = [ThenResolve q] /\ q < n.

Definition idle_shape (w : world) : Prop :=
  Forall quiet (heap w) /\ forall p, in_flight p w = false.

Definition busy_shape (w : world) : Prop :=
  exists cs ps p tl,
    calls w = cs ++ [(ps, p)] /\
    heap w !! p = Some (Cell Pending (OnSettle :: LadderThen :: tl)) /\
    tail_ok (length (heap w)) tl /\
    (forall p' c, p' <> p -> heap w !! p' = Some c -> quiet c) /\
    (forall p', in_flight p' w = true -> p' = p).

(** Between two events: the microtask queue is empty, at most one
    invocation is in flight, and only its promise carries reactions. *)
Record wf (w : world) : Prop := {
  wf_mq : mq w = [];
  wf_shape :
    (isRunning (state w) = 0%Z /\ idle_shape w) \/
    (isRunning (state w) = 1%Z /\ busy_shape w);
  wf_calls : Forall (fun c => snd c < length (heap w)) (calls w);
  wf_trigger : forall c, trigger w = Some c -> c_resolve c < length (heap w)
}.

(** Settling a promise that carries no reaction. *)
Definition settle_quietly (q : pid) (o : settlement) (h : list cell) : list cell :=
  match h !! q with
  | Some (Cell Pending _) => <[q := Cell (Settled o) []]> h
  | _ => h
  end.

Definition resolve_tail (tl : list reaction) (v : Value) (h : list cell) : list cell :=
  match tl with
  | [ThenResolve q] => settle_quietly q (Fulfilled v) h
  | _ => h
  end.

(** A pending promise that the program created itself, with
    [new Promise], for a queued caller. *)
Definition outer (q : pid) (w : world) : Prop :=
  is_command_promise q w = false /\ is_pending q w = true.

(** Every [resolve] that is still held, by the slot or by a registered
    [.then(resolve)], belongs to a pending promise of a queued caller,
    and the two never hold the same one. *)
Record refs_ok (w : world) : Prop := {
  slot_outer : forall c, trigger w = Some c -> outer (c_resolve c) w;
  tail_outer : forall p q rs,
      heap w !! p = Some (Cell Pending rs) ->
      In (ThenResolve q) rs ->
      outer q w /\ forall c, trigger w = Some c -> c_resolve c <> q
}.

(** A pending promise that nothing can settle any more: the command did
    not return it, and no stored closure, registered reaction or queued
    job holds its [resolve]. *)
Definition orphan (q : pid) (w : world) : Prop :=
  is_pending q w = true /\
  is_command_promise q w = false /\
  (forall c, trigger w = Some c -> c_resolve c <> q) /\
  Forall (fun c => ~ In (ThenResolve q) (c_reactions c)) (heap w) /\
  Forall (fun j => fst j <> ThenResolve q) (mq w).

(** The world after the invocation in flight, whose promise [p] carries
    the reactions [OnSettle :: LadderThen :: tl], is fulfilled with [v]. *)
Definition after_fulfilled (p : pid) (v : Value) (tl : list reaction) (w : world) : world :=
  let h := <[p := Cell (Settled (Fulfilled v)) []]> (heap w) in
  match trigger w with
  | Some c =>
      World (on_start (on_settle (Fulfilled v) (state w))) None
            (resolve_tail tl v
               (h ++ [Cell Pending [OnSettle; LadderThen; ThenResolve (c_resolve c)]]))
            (calls w ++ [(c_params c, length (heap w))]) []
  | None =>
      World (on_settle (Fulfilled v) (state w)) None (resolve_tail tl v h) (calls w) []
  end.

(** The world after it is rejected with [e]. *)
Definition after_rejected (p : pid) (e : Value) (w : world) : world :=
  World (on_settle (Rejected e) (state w)) (trigger w)
        (<[p := Cell (Settled (Rejected e)) []]> (heap w)) (calls w) [].

End Inv.
Import Inv.

(** ** Concrete worlds and the wording of a claim *)

(** A world used as a concrete input: [run(1)] is in flight and [run(2)]
    is queued behind it. *)
Definition one_queued : world :=
  World (ExecState 1 1 true false false false)
        (Some (Closure [2] 1))
        [Cell Pending [OnSettle; LadderThen]; new_cell]
        [([1], 0)] [].

(** The world in which the callback of lines 19-22 runs when the
    invocation in flight of [one_queued] is fulfilled: its promise is
    settled and the bookkeeping of the base class has run. *)
Definition at_callback : world :=
  set_mq []
    (run_job (OnSettle, Fulfilled 5)
       (set_mq [(LadderThen, Fulfilled 5)]
          (settle_promise 0 (Fulfilled 5) one_queued))).

(** The claim C5 as it is worded: in every world seen during the callback
    in which the follow-up has been started, the slot is already empty. *)
Definition slot_cleared_before_start (w : world) : Prop :=
  forall w', In w' (body_trace ladder_then_body w) ->
             length (calls w) < length (calls w') ->
             trigger w' = None.

(** A second concrete world: [run(1)] was rejected while [run(2)] was
    queued, which left the closure of [run(2)] in the slot, and [run(3)],
    called on the idle executor, is now in flight. *)
Definition stale_queued : world :=
  World (ExecState 1 2 true false true false)
        (Some (Closure [2] 1))
        [Cell (Settled (Rejected 7)) []; new_cell; Cell Pending [OnSettle; LadderThen]]
        [([1], 0); ([3], 2)] [].

(** Only promises that the command returned are ever rejected. *)
Definition rejections_are_the_commands (w : world) : Prop :=
  forall q e,
    status_of q w = Some (Settled (Rejected e)) ->
    is_command_promise q w = true.

(** ** Traces *)

(** The parameters of the [run] calls of a trace, in order. *)
Fixpoint run_params (es : list event) : list Params :=
  match es with
  | [] => []
  | Run ps :: es' => ps :: run_params es'
  | Settle _ _ :: es' => run_params es'
  end.

(** The parameters the executor has taken charge of: those the command
    was invoked with, then the ones waiting in the slot. *)
Definition known (w : world) : list Params :=
  invoked w ++ match trigger w with
               | Some c => [c_params c]
               | None => []
               end.

(** ** Rounds of the loader tests *)

Module LoaderRuns.
Import Loader.

(** One round of the tests 'loads list' and 'refreshes': [next()], then
    the wait during which the backing source answers. *)
Definition round (total : nat) (l : loader) : option loader :=
  serve total (next l).

Fixpoint rounds (total k : nat) (l : loader) : option loader :=
  match k with
  | O => Some l
  | S k' =>
      match round total l with
      | Some l1 => rounds total k' l1
      | None => None
      end
  end.

(** [refresh()], then the wait during which the backing source answers. *)
Definition refresh_round (total : nat) (l : loader) : option loader :=
  serve total (refresh l).

(** The loader of the test 'refreshes' before its [refresh()]: two pages
    of ten are loaded. *)
Definition two_pages_loaded : loader :=
  Loader_ (seq 0 20) 20 10 false Idle false [(0, 10); (10, 10)].

End LoaderRuns.

(** ** The heap as a list *)

Lemma lookup_fresh (h : list cell) (c : cell) :
  (h ++ [c]) !! length h = Some c.
Proof.
  induction h as [|x h IH]; simpl; [reflexivity | exact IH].
Qed.

Lemma insert_fresh (h : list cell) (c c' : cell) :
  <[length h := c']> (h ++ [c]) = h ++ [c'].
Proof.
  induction h as [|x h IH]; simpl; [reflexivity | now rewrite IH].
Qed.

Lemma lookup_old (h : list cell) (c : cell) (p : pid) :
  p < length h -> (h ++ [c]) !! p = h !! p.
Proof.
  intros Hp. now apply lookup_app_l.
Qed.

(** ** What one call does *)

Lemma super_run_eq (ps : Params) (w : world) :
  super_run ps w =
  (length (heap w),
   World (on_start (state w)) (trigger w)
         (heap w ++ [Cell Pending [OnSettle]])
         (calls w ++ [(ps, length (heap w))]) (mq w)).
Proof.
  unfold super_run, alloc, then_, set_calls, set_heap, set_state; simpl.
  rewrite lookup_fresh; simpl. now rewrite insert_fresh.
Qed.

Lemma run_idle_eq (ps : Params) (w : world) :
  isRunning (state w) = 0%Z ->
  run ps w =
  (length (heap w),
   World (on_start (state w)) (trigger w)
         (heap w ++ [Cell Pending [OnSettle; LadderThen]])
         (calls w ++ [(ps, length (heap w))]) (mq w)).
Proof.
  intros Hidle. unfold run.
  destruct (Z.eqb_spec (isRunning (state w)) 0) as [_|N]; [|contradiction].
  rewrite super_run_eq. unfold then_, set_heap; simpl.
  rewrite lookup_fresh; simpl. now rewrite insert_fresh.
Qed.

Lemma run_busy_eq (ps : Params) (w : world) :
  isRunning (state w) <> 0%Z ->
  run ps w =
  (length (heap w),
   World (state w) (Some (Closure ps (length (heap w))))
         (heap w ++ [new_cell]) (calls w) (mq w)).
Proof.
  intros Hbusy. unfold run.
  destruct (Z.eqb_spec (isRunning (state w)) 0) as [E|_]; [contradiction|].
  reflexivity.
Qed.

Lemma fire_idle_eq (c : closure) (w : world) :
  isRunning (state w) = 0%Z ->
  fire c w =
  World (on_start (state w)) (trigger w)
        (heap w ++ [Cell Pending [OnSettle; LadderThen; ThenResolve (c_resolve c)]])
        (calls w ++ [(c_params c, length (heap w))]) (mq w).
Proof.
  intros Hidle. unfold fire. rewrite (run_idle_eq _ _ Hidle).
  unfold then_, set_heap; simpl.
  rewrite lookup_fresh; simpl. now rewrite insert_fresh.
Qed.

(** ** The microtask queue *)

Lemma drain_nil (fuel : nat) (w : world) :
  mq w = [] -> drain fuel w = Some w.
Proof.
  intros E. destruct fuel; simpl; now rewrite E.
Qed.

Lemma drain_more (fuel : nat) :
  forall (w w' : world) (extra : nat),
    drain fuel w = Some w' -> drain (fuel + extra) w = Some w'.
Proof.
  induction fuel as [|fuel IH]; intros w w' extra H.
  - simpl in H. destruct (mq w) eqn:E; [|discriminate].
    injection H as <-. now apply drain_nil.
  - simpl in *. destruct (mq w) as [|j js]; [exact H|]. now apply IH.
Qed.

(** ** Promises in flight *)

Lemma is_command_promise_In (p : pid) (w : world) :
  is_command_promise p w = true <-> exists ps, In (ps, p) (calls w).
Proof.
  unfold is_command_promise. rewrite existsb_exists. split.
  - intros [[ps p'] [Hin Heq]]. simpl in Heq.
    apply Nat.eqb_eq in Heq. subst p'. now exists ps.
  - intros [ps Hin]. exists (ps, p). split; [exact Hin|].
    simpl. apply Nat.eqb_refl.
Qed.

Lemma is_pending_lookup (p : pid) (w : world) :
  is_pending p w = true <-> exists rs, heap w !! p = Some (Cell Pending rs).
Proof.
  unfold is_pending, status_of. split.
  - destruct (heap w !! p) as [[[|o] rs]|]; simpl; try discriminate.
    intros _. now exists rs.
  - intros [rs ->]. reflexivity.
Qed.

Lemma in_flight_inv (p : pid) (w : world) :
  in_flight p w = true ->
  (exists ps, In (ps, p) (calls w)) /\
  exists rs, heap w !! p = Some (Cell Pending rs).
Proof.
  unfold in_flight. intros H. apply andb_true_iff in H as [Hc Hp].
  split; [now apply is_command_promise_In | now apply is_pending_lookup].
Qed.

Lemma in_flight_intro (p : pid) (w : world) (ps : Params) (rs : list reaction) :
  In (ps, p) (calls w) ->
  heap w !! p = Some (Cell Pending rs) ->
  in_flight p w = true.
Proof.
  intros Hin Hl. unfold in_flight. apply andb_true_iff. split.
  - apply is_command_promise_In. now exists ps.
  - apply is_pending_lookup. now exists rs.
Qed.

Lemma not_in_flight (p : pid) (w : world) :
  (in_flight p w = true -> False) -> in_flight p w = false.
Proof.
  destruct (in_flight p w); [intros H; now destruct H | reflexivity].
Qed.

Lemma calls_below (w : world) (ps : Params) (p : pid) :
  wf w -> In (ps, p) (calls w) -> p < length (heap w).
Proof.
  intros Hwf Hin. pose proof (wf_calls w Hwf) as Hall.
  rewrite Forall_forall in Hall. exact (Hall _ Hin).
Qed.

Lemma tail_ok_mono (n m : nat) (tl : list reaction) :
  n <= m -> tail_ok n tl -> tail_ok m tl.
Proof.
  intros Hle [->|[q [-> Hq]]]; [now left|].
  right. exists q. split; [reflexivity | lia].
Qed.

(** ** Preservation of the invariant, one operation at a time *)

(** An invocation starts on an idle executor. *)
Lemma wf_start (w : world) (ps : Params) (t : option closure) (tl : list reaction) :
  wf w ->
  isRunning (state w) = 0%Z ->
  tail_ok (length (heap w)) tl ->
  (forall c, t = Some c -> c_resolve c < length (heap w)) ->
  wf (World (on_start (state w)) t
            (heap w ++ [Cell Pending (OnSettle :: LadderThen :: tl)])
            (calls w ++ [(ps, length (heap w))]) []).
Proof.
  intros Hwf Hidle Htl Ht.
  destruct (wf_shape w Hwf) as [[_ [Hq Hnone]]|[Hbusy _]]; [|lia].
  rewrite Forall_lookup in Hq.
  constructor; simpl.
  - reflexivity.
  - right. split; [lia|].
    exists (calls w), ps, (length (heap w)), tl. simpl.
    repeat split.
    + apply lookup_fresh.
    + rewrite length_app; simpl. eapply tail_ok_mono; [|exact Htl]. lia.
    + intros p' c Hne Hl.
      assert (p' < length (heap w)) as Hlt.
      { apply lookup_lt_Some in Hl. rewrite length_app in Hl; simpl in Hl. lia. }
      rewrite lookup_old in Hl by exact Hlt. exact (Hq _ _ Hl).
    + intros p' Hfl. apply in_flight_inv in Hfl as [[ps' Hin] [rs Hl]].
      simpl in Hin, Hl. apply in_app_or in Hin as [Hin|[Heq|[]]].
      * exfalso. pose proof (calls_below _ _ _ Hwf Hin) as Hlt.
        rewrite lookup_old in Hl by exact Hlt.
        pose proof (in_flight_intro _ _ _ _ Hin Hl) as Hf.
        rewrite Hnone in Hf. discriminate.
      * now inversion Heq.
  - apply Forall_app. split.
    + eapply Forall_impl; [|exact (wf_calls w Hwf)].
      intros a Ha. rewrite length_app; simpl. simpl in Ha. lia.
    + constructor; [|constructor]. simpl. rewrite length_app; simpl. lia.
  - intros c Hc. rewrite length_app; simpl. specialize (Ht c Hc). lia.
Qed.

(** A call is queued on a busy executor. *)
Lemma wf_queue (w : world) (ps : Params) :
  wf w ->
  isRunning (state w) <> 0%Z ->
  wf (World (state w) (Some (Closure ps (length (heap w))))
            (heap w ++ [new_cell]) (calls w) []).
Proof.
  intros Hwf Hbusy.
  destruct (wf_shape w Hwf) as [[Hidle _]|[Hone Hshape]]; [contradiction|].
  destruct Hshape as (cs & ps0 & p & tl & Hcalls & Hl & Htl & Hothers & Huniq).
  assert (p < length (heap w)) as Hp by (now apply lookup_lt_Some in Hl).
  constructor; simpl.
  - reflexivity.
  - right. split; [exact Hone|].
    exists cs, ps0, p, tl. simpl. repeat split.
    + exact Hcalls.
    + now rewrite lookup_old.
    + rewrite length_app; simpl. eapply tail_ok_mono; [|exact Htl]. lia.
    + intros p' c Hne Hl'.
      destruct (Nat.eq_dec p' (length (heap w))) as [->|Hne'].
      * rewrite lookup_fresh in Hl'. injection Hl' as <-. reflexivity.
      * assert (p' < length (heap w)) as Hlt.
        { apply lookup_lt_Some in Hl'. rewrite length_app in Hl'; simpl in Hl'. lia. }
        rewrite lookup_old in Hl' by exact Hlt. exact (Hothers _ _ Hne Hl').
    + intros p' Hfl. apply in_flight_inv in Hfl as [[ps' Hin] [rs Hl']].
      simpl in Hin, Hl'.
      pose proof (calls_below _ _ _ Hwf Hin) as Hlt.
      rewrite lookup_old in Hl' by exact Hlt.
      apply Huniq. exact (in_flight_intro _ _ _ _ Hin Hl').
  - eapply Forall_impl; [|exact (wf_calls w Hwf)].
    intros a Ha. rewrite length_app; simpl. simpl in Ha. lia.
  - intros c Hc. injection Hc as <-. simpl. rewrite length_app; simpl. lia.
Qed.

Lemma lookup_settled (h : list cell) (p p' : pid) (o : settlement) (rs : list reaction) :
  <[p := Cell (Settled o) []]> h !! p' = Some (Cell Pending rs) ->
  p' <> p /\ h !! p' = Some (Cell Pending rs).
Proof.
  intros Hl. destruct (Nat.eq_dec p' p) as [->|Hne].
  - exfalso. assert (p < length h) as Hlt.
    { apply lookup_lt_Some in Hl. now rewrite length_insert in Hl. }
    rewrite list_lookup_insert_eq in Hl by exact Hlt. discriminate.
  - split; [exact Hne|]. rewrite list_lookup_insert_ne in Hl by congruence.
    exact Hl.
Qed.

(** The invocation in flight settles. *)
Lemma wf_settled (w : world) (p : pid) (o : settlement) (t : option closure) :
  wf w ->
  in_flight p w = true ->
  (forall c, t = Some c -> c_resolve c < length (heap w)) ->
  wf (World (on_settle o (state w)) t
            (<[p := Cell (Settled o) []]> (heap w)) (calls w) []).
Proof.
  intros Hwf Hfl Ht.
  destruct (wf_shape w Hwf) as [[_ [_ Hnone]]|[Hone Hshape]].
  { rewrite Hnone in Hfl. discriminate. }
  destruct Hshape as (cs & ps0 & p0 & tl & Hcalls & Hl & Htl & Hothers & Huniq).
  pose proof (Huniq _ Hfl) as ->.
  constructor; simpl.
  - reflexivity.
  - left. split; [destruct o; simpl; lia|]. split; simpl.
    + apply Forall_lookup. intros i c Hi.
      destruct (Nat.eq_dec i p0) as [->|Hne].
      * rewrite list_lookup_insert_eq in Hi by (now apply lookup_lt_Some in Hl).
        injection Hi as <-. reflexivity.
      * rewrite list_lookup_insert_ne in Hi by congruence.
        exact (Hothers _ _ Hne Hi).
    + intros p'. apply not_in_flight. intros Hf.
      apply in_flight_inv in Hf as [[ps' Hin] [rs Hl']]. simpl in Hin, Hl'.
      apply lookup_settled in Hl' as [Hne Hl'].
      apply Hne, Huniq. exact (in_flight_intro _ _ _ _ Hin Hl').
  - rewrite length_insert. exact (wf_calls w Hwf).
  - intros c Hc. rewrite length_insert. exact (Ht c Hc).
Qed.

(** The promise of a queued caller is resolved. *)
Lemma wf_resolve (w : world) (q : pid) (o : settlement) :
  wf w ->
  (forall c, heap w !! q = Some c -> quiet c) ->
  wf (set_heap (settle_quietly q o (heap w)) w).
Proof.
  intros Hwf Hquiet. unfold settle_quietly.
  destruct (heap w !! q) as [[[|o'] rs]|] eqn:E;
    try (destruct w; exact Hwf).
  assert (q < length (heap w)) as Hq by (now apply lookup_lt_Some in E).
  constructor; simpl.
  - exact (wf_mq w Hwf).
  - destruct (wf_shape w Hwf) as [[Hidle [Hall Hnone]]|[Hone Hshape]].
    + left. split; [exact Hidle|]. split; simpl.
      * apply Forall_insert; [exact Hall | reflexivity].
      * intros p'. apply not_in_flight. intros Hf.
        apply in_flight_inv in Hf as [[ps' Hin] [rs' Hl']]. simpl in Hin, Hl'.
        apply lookup_settled in Hl' as [_ Hl'].
        pose proof (in_flight_intro _ _ _ _ Hin Hl') as Hf.
        rewrite Hnone in Hf. discriminate.
    + right. split; [exact Hone|].
      destruct Hshape as (cs & ps0 & p0 & tl & Hcalls & Hl & Htl & Hothers & Huniq).
      assert (p0 <> q) as Hne.
      { intros ->. rewrite E in Hl. injection Hl as ->.
        specialize (Hquiet _ eq_refl). discriminate. }
      exists cs, ps0, p0, tl. simpl. repeat split.
      * exact Hcalls.
      * rewrite list_lookup_insert_ne by congruence. exact Hl.
      * rewrite length_insert. exact Htl.
      * intros p' c Hne' Hl'.
        destruct (Nat.eq_dec p' q) as [->|Hne''].
        -- rewrite list_lookup_insert_eq in Hl' by exact Hq.
           injection Hl' as <-. reflexivity.
        -- rewrite list_lookup_insert_ne in Hl' by congruence.
           exact (Hothers _ _ Hne' Hl').
      * intros p' Hf.
        apply in_flight_inv in Hf as [[ps' Hin] [rs' Hl']]. simpl in Hin, Hl'.
        apply lookup_settled in Hl' as [_ Hl'].
        apply Huniq. exact (in_flight_intro _ _ _ _ Hin Hl').
  - rewrite length_insert. exact (wf_calls w Hwf).
  - intros c Hc. rewrite length_insert. exact (wf_trigger w Hwf c Hc).
Qed.

Lemma settle_promise_quiet (w : world) (q : pid) (o : settlement) :
  (forall c, heap w !! q = Some c -> quiet c) ->
  settle_promise q o w = set_heap (settle_quietly q o (heap w)) w.
Proof.
  intros Hquiet. unfold settle_promise, settle_quietly.
  destruct (heap w !! q) as [[[|o'] rs]|] eqn:E; try (now destruct w).
  specialize (Hquiet _ eq_refl). unfold quiet in Hquiet. simpl in Hquiet.
  subst rs. simpl. destruct w; unfold set_mq, set_heap; simpl.
  now rewrite app_nil_r.
Qed.

(** ** The callback of lines 19-22 *)

Lemma ladder_then_eq (w : world) :
  ladder_then w = clear_trigger (call_trigger w).
Proof. reflexivity. Qed.

Lemma ladder_then_some (w : world) (c : closure) :
  isRunning (state w) = 0%Z ->
  trigger w = Some c ->
  ladder_then w =
  World (on_start (state w)) None
        (heap w ++ [Cell Pending [OnSettle; LadderThen; ThenResolve (c_resolve c)]])
        (calls w ++ [(c_params c, length (heap w))]) (mq w).
Proof.
  intros Hidle Ht. rewrite ladder_then_eq. unfold call_trigger. rewrite Ht.
  now rewrite (fire_idle_eq _ _ Hidle).
Qed.

Lemma ladder_then_none (w : world) :
  trigger w = None -> ladder_then w = w.
Proof.
  intros Ht. rewrite ladder_then_eq. unfold call_trigger. rewrite Ht.
  destruct w; simpl in *. now subst.
Qed.

(** ** What one event does *)

Arguments ladder_then : simpl never.
Arguments settle_promise : simpl never.

Lemma drain_budget (w w' : world) :
  drain (length (mq w)) w = Some w' -> drain (budget w) w = Some w'.
Proof.
  intros H. unfold budget. now apply drain_more.
Qed.

Lemma step_run_idle (w : world) (ps : Params) :
  wf w ->
  isRunning (state w) = 0%Z ->
  step (Run ps) w =
  Some (World (on_start (state w)) (trigger w)
              (heap w ++ [Cell Pending [OnSettle; LadderThen]])
              (calls w ++ [(ps, length (heap w))]) []).
Proof.
  intros Hwf Hidle. unfold step, apply_event.
  rewrite (run_idle_eq _ _ Hidle). simpl.
  rewrite (wf_mq w Hwf). now apply drain_nil.
Qed.

Lemma step_run_busy (w : world) (ps : Params) :
  wf w ->
  isRunning (state w) <> 0%Z ->
  step (Run ps) w =
  Some (World (state w) (Some (Closure ps (length (heap w))))
              (heap w ++ [new_cell]) (calls w) []).
Proof.
  intros Hwf Hbusy. unfold step, apply_event.
  rewrite (run_busy_eq _ _ Hbusy). simpl.
  rewrite (wf_mq w Hwf). now apply drain_nil.
Qed.

Lemma busy_in_flight (w : world) (p : pid) :
  wf w ->
  in_flight p w = true ->
  isRunning (state w) = 1%Z /\
  exists tl,
    heap w !! p = Some (Cell Pending (OnSettle :: LadderThen :: tl)) /\
    tail_ok (length (heap w)) tl /\
    (forall p' c, p' <> p -> heap w !! p' = Some c -> quiet c).
Proof.
  intros Hwf Hfl.
  destruct (wf_shape w Hwf) as [[_ [_ Hnone]]|[Hone Hshape]].
  { rewrite Hnone in Hfl. discriminate. }
  destruct Hshape as (cs & ps0 & p0 & tl & Hcalls & Hl & Htl & Hothers & Huniq).
  pose proof (Huniq _ Hfl) as ->.
  split; [exact Hone|]. now exists tl.
Qed.

Lemma step_settle_rejected (w : world) (p : pid) (e : Value) :
  wf w ->
  in_flight p w = true ->
  step (Settle p (Rejected e)) w = Some (after_rejected p e w).
Proof.
  intros Hwf Hfl.
  destruct (busy_in_flight _ _ Hwf Hfl) as (Hone & tl & Hl & Htl & Hothers).
  unfold step, apply_event. rewrite Hfl. apply drain_budget.
  unfold settle_promise. rewrite Hl. rewrite (wf_mq w Hwf).
  destruct w as [s t h cs m]. simpl in *.
  destruct Htl as [->|[q [-> Hq]]]; reflexivity.
Qed.

Lemma step_settle_fulfilled (w : world) (p : pid) (v : Value) :
  wf w ->
  in_flight p w = true ->
  exists tl,
    heap w !! p = Some (Cell Pending (OnSettle :: LadderThen :: tl)) /\
    step (Settle p (Fulfilled v)) w = Some (after_fulfilled p v tl w).
Proof.
  intros Hwf Hfl.
  destruct (busy_in_flight _ _ Hwf Hfl) as (Hone & tl & Hl & Htl & Hothers).
  exists tl. split; [exact Hl|].
  assert (p < length (heap w)) as Hp by (now apply lookup_lt_Some in Hl).
  pose proof (wf_trigger w Hwf) as Hbound.
  unfold step, apply_event. rewrite Hfl. apply drain_budget.
  unfold settle_promise. rewrite Hl. rewrite (wf_mq w Hwf).
  unfold after_fulfilled.
  destruct w as [s t h cs m]. simpl in *.
  assert (isRunning (on_settle (Fulfilled v) s) = 0%Z) as Hidle by (simpl; lia).
  destruct t as [c|].
  - (* a follow-up is queued *)
    unfold set_mq, set_state, set_heap in *; simpl.
    rewrite (ladder_then_some _ c) by first [exact Hidle | reflexivity].
    simpl. rewrite length_insert.
    destruct Htl as [->|[q [-> Hq]]]; simpl; [reflexivity|].
    rewrite settle_promise_quiet; [reflexivity|].
    simpl. intros c0 Hc0.
    rewrite lookup_old in Hc0 by (now rewrite length_insert).
    destruct (Nat.eq_dec q p) as [->|Hne].
    + rewrite list_lookup_insert_eq in Hc0 by exact Hp.
      injection Hc0 as <-. reflexivity.
    + rewrite list_lookup_insert_ne in Hc0 by congruence.
      exact (Hothers _ _ Hne Hc0).
  - (* the slot is empty *)
    unfold set_mq, set_state, set_heap in *; simpl.
    rewrite ladder_then_none by reflexivity.
    destruct Htl as [->|[q [-> Hq]]]; simpl; [reflexivity|].
    rewrite settle_promise_quiet; [reflexivity|].
    simpl. intros c0 Hc0.
    destruct (Nat.eq_dec q p) as [->|Hne].
    + rewrite list_lookup_insert_eq in Hc0 by exact Hp.
      injection Hc0 as <-. reflexivity.
    + rewrite list_lookup_insert_ne in Hc0 by congruence.
      exact (Hothers _ _ Hne Hc0).
Qed.

(** ** The invariant holds in every reachable world *)

Lemma wf_after_rejected (w : world) (p : pid) (e : Value) :
  wf w -> in_flight p w = true -> wf (after_rejected p e w).
Proof.
  intros Hwf Hfl. apply wf_settled; [exact Hwf | exact Hfl |].
  exact (wf_trigger w Hwf).
Qed.

Lemma wf_after_fulfilled (w : world) (p : pid) (v : Value) (tl : list reaction) :
  wf w ->
  in_flight p w = true ->
  heap w !! p = Some (Cell Pending (OnSettle :: LadderThen :: tl)) ->
  wf (after_fulfilled p v tl w).
Proof.
  intros Hwf Hfl Hl.
  destruct (busy_in_flight _ _ Hwf Hfl) as (Hone & tl' & Hl' & Htl & Hothers).
  rewrite Hl in Hl'. injection Hl' as <-.
  set (wa := World (on_settle (Fulfilled v) (state w)) None
                   (<[p := Cell (Settled (Fulfilled v)) []]> (heap w)) (calls w) []).
  assert (wf wa) as Hwa by (apply wf_settled; [exact Hwf | exact Hfl | discriminate]).
  assert (isRunning (state wa) = 0%Z) as Hidle by (simpl; lia).
  assert (Forall quiet (heap wa)) as Hquiet.
  { destruct (wf_shape wa Hwa) as [[_ [Hq _]]|[Hb _]]; [exact Hq | lia]. }
  rewrite Forall_lookup in Hquiet.
  unfold after_fulfilled. destruct (trigger w) as [c|] eqn:Ht.
  - assert (c_resolve c < length (heap wa)) as Hc.
    { simpl. rewrite length_insert. exact (wf_trigger w Hwf c Ht). }
    assert (tail_ok (length (heap wa)) [ThenResolve (c_resolve c)]) as Hok.
    { right. now exists (c_resolve c). }
    pose proof (wf_start wa (c_params c) None _ Hwa Hidle Hok) as Hwb.
    simpl in Hwb. rewrite length_insert in Hwb.
    specialize (Hwb ltac:(discriminate)).
    destruct Htl as [->|[q [-> Hq]]]; simpl; [exact Hwb|].
    apply (wf_resolve _ q (Fulfilled v)) in Hwb; [exact Hwb|].
    simpl. intros c0 Hc0.
    rewrite lookup_old in Hc0 by (now rewrite length_insert).
    exact (Hquiet _ _ Hc0).
  - destruct Htl as [->|[q [-> Hq]]]; simpl; [exact Hwa|].
    apply (wf_resolve _ q (Fulfilled v)) in Hwa; [exact Hwa|].
    intros c0 Hc0. exact (Hquiet _ _ Hc0).
Qed.

Lemma wf_init : wf init.
Proof.
  constructor; simpl.
  - reflexivity.
  - left. split; [reflexivity|]. split; [constructor | reflexivity].
  - constructor.
  - discriminate.
Qed.

Lemma wf_step (e : event) (w w' : world) :
  wf w -> step e w = Some w' -> wf w'.
Proof.
  intros Hwf Hstep. destruct e as [ps|p o].
  - destruct (Z.eq_dec (isRunning (state w)) 0%Z) as [Hidle|Hbusy].
    + rewrite (step_run_idle _ _ Hwf Hidle) in Hstep. injection Hstep as <-.
      apply (wf_start w ps (trigger w) []);
        [exact Hwf | exact Hidle | now left | exact (wf_trigger w Hwf)].
    + rewrite (step_run_busy _ _ Hwf Hbusy) in Hstep. injection Hstep as <-.
      now apply wf_queue.
  - destruct (in_flight p w) eqn:Hfl.
    + destruct o as [v|e].
      * destruct (step_settle_fulfilled w p v Hwf Hfl) as (tl & Hl & Heq).
        rewrite Heq in Hstep. injection Hstep as <-.
        now apply wf_after_fulfilled.
      * rewrite (step_settle_rejected _ _ _ Hwf Hfl) in Hstep.
        injection Hstep as <-. now apply wf_after_rejected.
    + unfold step, apply_event in Hstep. rewrite Hfl in Hstep. discriminate.
Qed.

Lemma wf_steps (es : list event) :
  forall w w', wf w -> steps es w = Some w' -> wf w'.
Proof.
  induction es as [|e es IH]; intros w w' Hwf Hsteps; simpl in Hsteps.
  - now injection Hsteps as <-.
  - destruct (step e w) as [w1|] eqn:Hstep; [|discriminate].
    eapply IH; [|exact Hsteps]. eapply wf_step; [exact Hwf | exact Hstep].
Qed.

Lemma wf_reachable (w : world) : reachable w -> wf w.
Proof.
  intros [es Hes]. eapply wf_steps; [exact wf_init | exact Hes].
Qed.

Lemma reachable_init : reachable init.
Proof. now exists []. Qed.

(** ** Calls while an invocation is in flight *)

Lemma in_flight_started (w : world) (ps : Params) (t : option closure)
      (rs : list reaction) (m : list job) (s : ExecutionState) :
  in_flight (length (heap w))
            (World s t (heap w ++ [Cell Pending rs])
                   (calls w ++ [(ps, length (heap w))]) m) = true.
Proof.
  apply (in_flight_intro _ _ ps rs); simpl.
  - apply in_or_app. right. now left.
  - apply lookup_fresh.
Qed.

Lemma in_flight_queued (w : world) (p : pid) (t : option closure)
      (c : cell) (m : list job) :
  in_flight p w = true ->
  in_flight p (World (state w) t (heap w ++ [c]) (calls w) m) = true.
Proof.
  intros Hfl. apply in_flight_inv in Hfl as [[ps Hin] [rs Hl]].
  apply (in_flight_intro _ _ ps rs); simpl; [exact Hin|].
  rewrite lookup_old; [exact Hl | now apply lookup_lt_Some in Hl].
Qed.

Lemma busy_of_in_flight (w : world) (p : pid) :
  wf w -> in_flight p w = true -> isRunning (state w) <> 0%Z.
Proof.
  intros Hwf Hfl. destruct (busy_in_flight _ _ Hwf Hfl) as [Hone _]. lia.
Qed.

(** A call made while [p] is in flight starts nothing: it only writes the
    slot, and [p] stays in flight. *)
Lemma step_run_queued (w : world) (p : pid) (ps : Params) :
  wf w ->
  in_flight p w = true ->
  exists w',
    step (Run ps) w = Some w' /\
    wf w' /\
    in_flight p w' = true /\
    calls w' = calls w /\
    state w' = state w /\
    trigger w' = Some (Closure ps (length (heap w))) /\
    heap w' = heap w ++ [new_cell].
Proof.
  intros Hwf Hfl. pose proof (busy_of_in_flight _ _ Hwf Hfl) as Hbusy.
  eexists. split; [exact (step_run_busy _ ps Hwf Hbusy)|].
  split; [now apply wf_queue|].
  split; [now apply in_flight_queued|].
  repeat split.
Qed.

(** A call made on an idle executor starts one invocation, whose promise
    is then in flight. *)
Lemma step_run_started (w : world) (ps : Params) :
  wf w ->
  isRunning (state w) = 0%Z ->
  exists w',
    step (Run ps) w = Some w' /\
    wf w' /\
    in_flight (length (heap w)) w' = true /\
    calls w' = calls w ++ [(ps, length (heap w))] /\
    trigger w' = trigger w /\
    heap w' = heap w ++ [Cell Pending [OnSettle; LadderThen]].
Proof.
  intros Hwf Hidle.
  eexists. split; [exact (step_run_idle _ ps Hwf Hidle)|].
  split.
  { apply (wf_start w ps (trigger w) []);
      [exact Hwf | exact Hidle | now left | exact (wf_trigger w Hwf)]. }
  split; [apply in_flight_started|].
  repeat split.
Qed.

(** The invocation in flight is fulfilled: the slot ends up empty, and a
    queued follow-up is the one new invocation. *)
Lemma step_fulfilled_summary (w : world) (p : pid) (v : Value) :
  wf w ->
  in_flight p w = true ->
  exists w',
    step (Settle p (Fulfilled v)) w = Some w' /\
    wf w' /\
    trigger w' = None /\
    calls w' =
      match trigger w with
      | Some c => calls w ++ [(c_params c, length (heap w))]
      | None => calls w
      end.
Proof.
  intros Hwf Hfl.
  destruct (step_settle_fulfilled w p v Hwf Hfl) as (tl & Hl & Heq).
  exists (after_fulfilled p v tl w).
  split; [exact Heq|]. split; [now apply wf_after_fulfilled|].
  unfold after_fulfilled. destruct (trigger w); split; reflexivity.
Qed.

(** The invocation in flight is rejected: nothing starts and the slot
    keeps what it holds. *)
Lemma step_rejected_summary (w : world) (p : pid) (e : Value) :
  wf w ->
  in_flight p w = true ->
  exists w',
    step (Settle p (Rejected e)) w = Some w' /\
    wf w' /\
    trigger w' = trigger w /\
    calls w' = calls w /\
    isRunning (state w') = 0%Z /\
    length (heap w') = length (heap w).
Proof.
  intros Hwf Hfl. exists (after_rejected p e w).
  split; [now apply step_settle_rejected|].
  split; [now apply wf_after_rejected|].
  destruct (busy_in_flight _ _ Hwf Hfl) as [Hone _].
  repeat split; simpl; [lia | apply length_insert].
Qed.

(** In a reachable world the microtask queue never outruns its budget:
    every call, and every settlement of the invocation in flight, leads
    to a next world. *)
Lemma step_defined (w : world) (e : event) :
  reachable w ->
  match e with
  | Run _ => True
  | Settle p _ => in_flight p w = true
  end ->
  exists w', step e w = Some w' /\ reachable w'.
Proof.
  intros Hr He. pose proof (wf_reachable _ Hr) as Hwf.
  assert (forall w', step e w = Some w' -> reachable w') as Hnext.
  { intros w' Hs. destruct Hr as [es Hes]. exists (es ++ [e]).
    clear - Hes Hs. revert Hes. generalize init.
    induction es as [|e0 es IH]; intros w0 Hes; simpl in *.
    - injection Hes as ->. now rewrite Hs.
    - destruct (step e0 w0) as [w1|]; [|discriminate]. now apply IH. }
  destruct e as [ps|p [v|err]].
  - destruct (Z.eq_dec (isRunning (state w)) 0%Z) as [Hidle|Hbusy].
    + eexists. split; [exact (step_run_idle _ ps Hwf Hidle)|].
      apply Hnext. exact (step_run_idle _ ps Hwf Hidle).
    + eexists. split; [exact (step_run_busy _ ps Hwf Hbusy)|].
      apply Hnext. exact (step_run_busy _ ps Hwf Hbusy).
  - destruct (step_settle_fulfilled w p v Hwf He) as (tl & _ & Heq).
    eexists. split; [exact Heq | apply Hnext; exact Heq].
  - eexists. split; [exact (step_settle_rejected _ _ err Hwf He)|].
    apply Hnext. exact (step_settle_rejected _ _ err Hwf He).
Qed.

(** * LadderExecutor: the claims *)

Lemma one_queued_reachable : reachable one_queued.
Proof. exists [Run [1]; Run [2]]. vm_compute. reflexivity. Defined.

(** C6: a [run] call made while the executor is not running starts exactly
    one invocation of the command at once, with the parameters of the
    call; it writes nothing to the slot and queues no microtask; and the
    promise it returns is the one that the base [run] returns for that
    invocation, which is the promise the command produced. *)
Theorem C6_idle_run_delegates (w : world) (ps : Params) :
  isRunning (state w) = 0%Z ->
  fst (run ps w) = fst (super_run ps w) /\
  calls (snd (run ps w)) = calls w ++ [(ps, fst (run ps w))] /\
  calls (snd (run ps w)) = calls (snd (super_run ps w)) /\
  invoked (snd (run ps w)) = invoked w ++ [ps] /\
  trigger (snd (run ps w)) = trigger w /\
  mq (snd (run ps w)) = mq w /\
  length (heap (snd (run ps w))) = S (length (heap w)).
Proof.
  intros Hidle. rewrite (run_idle_eq _ _ Hidle), super_run_eq. simpl.
  repeat split.
  - unfold invoked. simpl. now rewrite map_app.
  - rewrite length_app. simpl. lia.
Qed.

Lemma C6_idle_run_delegates_witness :
  isRunning (state init) = 0%Z /\
  fst (run [1] init) = fst (super_run [1] init) /\
  calls (snd (run [1] init)) = calls init ++ [([1], fst (run [1] init))] /\
  calls (snd (run [1] init)) = calls (snd (super_run [1] init)) /\
  invoked (snd (run [1] init)) = invoked init ++ [[1]] /\
  trigger (snd (run [1] init)) = trigger init /\
  mq (snd (run [1] init)) = mq init /\
  length (heap (snd (run [1] init))) = S (length (heap init)).
Proof.
  split; [reflexivity|]. apply (C6_idle_run_delegates init [1]). reflexivity.
Defined.

(** C3, as the code has it: three [run] calls issued while one
    invocation is in flight start nothing themselves; the slot, an
    option, holds one pending follow-up, each call overwriting the
    parameters of the one before.  When the invocation in flight is
    fulfilled, exactly one follow-up starts, with the parameters of the
    last call: two invocations in total.  But when it is rejected no
    follow-up starts, for want of a rejection handler at line 19: there
    is one invocation in total, and the last call stays in the slot of
    the idle executor.  The claim's "exactly two" fails in this case. *)
Theorem C3_three_calls_coalesce (w : world) (first a b c : Params) (v e : Value) :
  reachable w ->
  isRunning (state w) = 0%Z ->
  exists w0 w1 w2 w3,
    step (Run first) w = Some w0 /\ invoked w0 = invoked w ++ [first] /\
    step (Run a) w0 = Some w1 /\ invoked w1 = invoked w0 /\
    c_params <$> trigger w1 = Some a /\
    step (Run b) w1 = Some w2 /\ invoked w2 = invoked w0 /\
    c_params <$> trigger w2 = Some b /\
    step (Run c) w2 = Some w3 /\ invoked w3 = invoked w0 /\
    c_params <$> trigger w3 = Some c /\
    (exists w4,
        step (Settle (length (heap w)) (Fulfilled v)) w3 = Some w4 /\
        invoked w4 = invoked w ++ [first; c] /\
        trigger w4 = None) /\
    (exists w4,
        step (Settle (length (heap w)) (Rejected e)) w3 = Some w4 /\
        invoked w4 = invoked w ++ [first] /\
        c_params <$> trigger w4 = Some c /\
        isRunning (state w4) = 0%Z).
Proof.
  intros Hr Hidle. apply wf_reachable in Hr.
  destruct (step_run_started w first Hr Hidle)
    as (w0 & S0 & Hwf0 & Hfl0 & Hc0 & _ & _).
  destruct (step_run_queued w0 _ a Hwf0 Hfl0)
    as (w1 & S1 & Hwf1 & Hfl1 & Hc1 & _ & Ht1 & _).
  destruct (step_run_queued w1 _ b Hwf1 Hfl1)
    as (w2 & S2 & Hwf2 & Hfl2 & Hc2 & _ & Ht2 & _).
  destruct (step_run_queued w2 _ c Hwf2 Hfl2)
    as (w3 & S3 & Hwf3 & Hfl3 & Hc3 & _ & Ht3 & _).
  destruct (step_fulfilled_summary w3 _ v Hwf3 Hfl3)
    as (w4 & S4 & _ & Ht4 & Hc4).
  destruct (step_rejected_summary w3 _ e Hwf3 Hfl3)
    as (w5 & S5 & _ & Ht5 & Hc5 & Hidle5 & _).
  exists w0, w1, w2, w3. unfold invoked.
  rewrite Ht3 in Hc4. simpl in Hc4.
  rewrite Hc3, Hc2, Hc1, Hc0, Ht1, Ht2, Ht3.
  rewrite !map_app. simpl.
  do 11 (split; [first [assumption | reflexivity]|]).
  split.
  - exists w4. rewrite Hc4, Hc3, Hc2, Hc1, Hc0, !map_app. simpl.
    rewrite <- app_assoc. simpl. repeat split; assumption.
  - exists w5. rewrite Hc5, Hc3, Hc2, Hc1, Hc0, Ht5, Ht3, !map_app. simpl.
    repeat split; assumption.
Qed.

Lemma C3_three_calls_coalesce_witness :
  reachable init /\ isRunning (state init) = 0%Z /\
  exists w0 w1 w2 w3,
    step (Run [1]) init = Some w0 /\ invoked w0 = invoked init ++ [[1]] /\
    step (Run [2]) w0 = Some w1 /\ invoked w1 = invoked w0 /\
    c_params <$> trigger w1 = Some [2] /\
    step (Run [3]) w1 = Some w2 /\ invoked w2 = invoked w0 /\
    c_params <$> trigger w2 = Some [3] /\
    step (Run [4]) w2 = Some w3 /\ invoked w3 = invoked w0 /\
    c_params <$> trigger w3 = Some [4] /\
    (exists w4,
        step (Settle (length (heap init)) (Fulfilled 0)) w3 = Some w4 /\
        invoked w4 = invoked init ++ [[1]; [4]] /\
        trigger w4 = None) /\
    (exists w4,
        step (Settle (length (heap init)) (Rejected 7)) w3 = Some w4 /\
        invoked w4 = invoked init ++ [[1]] /\
        c_params <$> trigger w4 = Some [4] /\
        isRunning (state w4) = 0%Z).
Proof.
  split; [exact reachable_init|]. split; [reflexivity|].
  apply (C3_three_calls_coalesce init [1] [2] [3] [4] 0 7);
    [exact reachable_init | reflexivity].
Defined.

(** C1, as the code has it: with an invocation in flight and a follow-up
    queued, no [run] call starts anything before the settlement; when the
    invocation is fulfilled the follow-up starts at that settlement; but
    when it is rejected the follow-up does not start: the callback of
    line 19 has no rejection handler, so the executor goes idle with the
    follow-up still in the slot.  The claim "regardless of whether that
    invocation succeeded or failed" fails in this last case. *)
Theorem C1_follow_up_starts_only_on_fulfilment (w : world) (p : pid) (c : closure) :
  reachable w ->
  in_flight p w = true ->
  trigger w = Some c ->
  (forall ps, exists w',
      step (Run ps) w = Some w' /\ invoked w' = invoked w) /\
  (forall v, exists w',
      step (Settle p (Fulfilled v)) w = Some w' /\
      invoked w' = invoked w ++ [c_params c] /\
      trigger w' = None) /\
  (forall e, exists w',
      step (Settle p (Rejected e)) w = Some w' /\
      invoked w' = invoked w /\
      trigger w' = Some c /\
      isRunning (state w') = 0%Z).
Proof.
  intros Hr Hfl Ht. apply wf_reachable in Hr. repeat split.
  - intros ps.
    destruct (step_run_queued w p ps Hr Hfl) as (w' & S1 & _ & _ & Hc & _).
    exists w'. split; [exact S1|]. unfold invoked. now rewrite Hc.
  - intros v.
    destruct (step_fulfilled_summary w p v Hr Hfl) as (w' & S1 & _ & Ht' & Hc).
    exists w'. rewrite Ht in Hc. unfold invoked. rewrite Hc, map_app.
    repeat split; assumption.
  - intros e.
    destruct (step_rejected_summary w p e Hr Hfl)
      as (w' & S1 & _ & Ht' & Hc & Hidle & _).
    exists w'. unfold invoked. rewrite Hc, Ht', Ht.
    repeat split; assumption.
Qed.

Lemma C1_follow_up_starts_only_on_fulfilment_witness :
  reachable one_queued /\
  in_flight 0 one_queued = true /\
  trigger one_queued = Some (Closure [2] 1) /\
  (forall ps, exists w',
      step (Run ps) one_queued = Some w' /\ invoked w' = invoked one_queued) /\
  (forall v, exists w',
      step (Settle 0 (Fulfilled v)) one_queued = Some w' /\
      invoked w' = invoked one_queued ++ [c_params (Closure [2] 1)] /\
      trigger w' = None) /\
  (forall e, exists w',
      step (Settle 0 (Rejected e)) one_queued = Some w' /\
      invoked w' = invoked one_queued /\
      trigger w' = Some (Closure [2] 1) /\
      isRunning (state w') = 0%Z).
Proof.
  split; [exact one_queued_reachable|]. split; [reflexivity|].
  split; [reflexivity|].
  apply (C1_follow_up_starts_only_on_fulfilment one_queued 0 (Closure [2] 1));
    [exact one_queued_reachable | reflexivity | reflexivity].
Defined.

(** C10: when the invocation in flight is rejected while a follow-up is
    queued, the slot is not cleared at that settlement and nothing
    starts; the stale closure stays stored.  When [run] is then called on
    the idle executor and that invocation is fulfilled, the stale
    follow-up is invoked at that settlement, with its old parameters. *)
Theorem C10_stale_follow_up (w : world) (p : pid) (c : closure)
        (e : Value) (ps : Params) (v : Value) :
  reachable w ->
  in_flight p w = true ->
  trigger w = Some c ->
  exists w1 w2 w3,
    step (Settle p (Rejected e)) w = Some w1 /\
    trigger w1 = Some c /\
    invoked w1 = invoked w /\
    isRunning (state w1) = 0%Z /\
    step (Run ps) w1 = Some w2 /\
    trigger w2 = Some c /\
    invoked w2 = invoked w ++ [ps] /\
    step (Settle (fst (run ps w1)) (Fulfilled v)) w2 = Some w3 /\
    invoked w3 = invoked w ++ [ps; c_params c] /\
    trigger w3 = None.
Proof.
  intros Hr Hfl Ht. apply wf_reachable in Hr.
  destruct (step_rejected_summary w p e Hr Hfl)
    as (w1 & S1 & Hwf1 & Ht1 & Hc1 & Hidle & _).
  destruct (step_run_started w1 ps Hwf1 Hidle)
    as (w2 & S2 & Hwf2 & Hfl2 & Hc2 & Ht2 & _).
  destruct (step_fulfilled_summary w2 _ v Hwf2 Hfl2)
    as (w3 & S3 & _ & Ht3 & Hc3).
  exists w1, w2, w3.
  rewrite (run_idle_eq _ _ Hidle). simpl.
  rewrite Ht2, Ht1, Ht in Hc3. rewrite Ht2, Ht1, Ht.
  unfold invoked. rewrite Hc3, Hc2, Hc1, !map_app, <- app_assoc. simpl.
  repeat split; assumption.
Qed.

Lemma C10_stale_follow_up_witness :
  reachable one_queued /\
  in_flight 0 one_queued = true /\
  trigger one_queued = Some (Closure [2] 1) /\
  exists w1 w2 w3,
    step (Settle 0 (Rejected 7)) one_queued = Some w1 /\
    trigger w1 = Some (Closure [2] 1) /\
    invoked w1 = invoked one_queued /\
    isRunning (state w1) = 0%Z /\
    step (Run [3]) w1 = Some w2 /\
    trigger w2 = Some (Closure [2] 1) /\
    invoked w2 = invoked one_queued ++ [[3]] /\
    step (Settle (fst (run [3] w1)) (Fulfilled 5)) w2 = Some w3 /\
    invoked w3 = invoked one_queued ++ [[3]; c_params (Closure [2] 1)] /\
    trigger w3 = None.
Proof.
  split; [exact one_queued_reachable|]. split; [reflexivity|].
  split; [reflexivity|].
  apply (C10_stale_follow_up one_queued 0 (Closure [2] 1) 7 [3] 5);
    [exact one_queued_reachable | reflexivity | reflexivity].
Defined.

(** ** Promises that nothing can settle *)

Lemma orphan_below (q : pid) (w : world) :
  orphan q w -> q < length (heap w).
Proof.
  intros [Hp _]. apply is_pending_lookup in Hp as [rs Hl].
  now apply lookup_lt_Some in Hl.
Qed.

Lemma orphan_pending (q : pid) (w : world) :
  orphan q w -> status_of q w = Some Pending.
Proof.
  intros [Hp _]. apply is_pending_lookup in Hp as [rs Hl].
  unfold status_of. now rewrite Hl.
Qed.

Lemma orphan_set_mq (q : pid) (w : world) (m : list job) :
  orphan q w ->
  Forall (fun j => fst j <> ThenResolve q) m ->
  orphan q (set_mq m w).
Proof.
  intros (H1 & H2 & H3 & H4 & _) Hm. repeat split; assumption.
Qed.

Lemma orphan_set_state (q : pid) (w : world) (s : ExecutionState) :
  orphan q w -> orphan q (set_state s w).
Proof.
  intros (H1 & H2 & H3 & H4 & H5). repeat split; assumption.
Qed.

Lemma orphan_set_trigger (q : pid) (w : world) (t : option closure) :
  orphan q w ->
  (forall c, t = Some c -> c_resolve c <> q) ->
  orphan q (set_trigger t w).
Proof.
  intros (H1 & H2 & _ & H4 & H5) Ht. repeat split; assumption.
Qed.

Lemma orphan_then (q p : pid) (r : reaction) (w : world) :
  orphan q w -> r <> ThenResolve q -> orphan q (then_ p r w).
Proof.
  intros Ho Hr. pose proof Ho as (H1 & H2 & H3 & H4 & H5).
  unfold then_. destruct (heap w !! p) as [[[|o] rs]|] eqn:E; [| |exact Ho].
  - assert (p < length (heap w)) as Hp by (now apply lookup_lt_Some in E).
    repeat split; simpl; try assumption.
    + apply is_pending_lookup in H1 as [rs' Hl]. apply is_pending_lookup.
      simpl. destruct (Nat.eq_dec q p) as [->|Hne].
      * rewrite list_lookup_insert_eq by exact Hp. now eexists.
      * rewrite list_lookup_insert_ne by congruence. now exists rs'.
    + apply Forall_insert; [exact H4|]. simpl. intros Hin.
      apply in_app_or in Hin as [Hin|[Heq|[]]]; [|congruence].
      rewrite Forall_lookup in H4. exact (H4 _ _ E Hin).
  - repeat split; simpl; try assumption.
    apply Forall_app. split; [exact H5|]. constructor; [exact Hr|constructor].
Qed.

Lemma orphan_settle (q p : pid) (o : settlement) (w : world) :
  orphan q w -> p <> q -> orphan q (settle_promise p o w).
Proof.
  intros Ho Hne. pose proof Ho as (H1 & H2 & H3 & H4 & H5).
  unfold settle_promise.
  destruct (heap w !! p) as [[[|o'] rs]|] eqn:E; [|exact Ho|exact Ho].
  repeat split; simpl; try assumption.
  - apply is_pending_lookup in H1 as [rs' Hl]. apply is_pending_lookup.
    simpl. rewrite list_lookup_insert_ne by congruence. now exists rs'.
  - apply Forall_insert; [exact H4|]. simpl. tauto.
  - apply Forall_app. split; [exact H5|].
    rewrite Forall_lookup in H4. specialize (H4 _ _ E). simpl in H4.
    apply Forall_forall. intros j Hj. apply in_map_iff in Hj as [r [<- Hr]].
    simpl. intros ->. exact (H4 Hr).
Qed.

(** A new promise and a new invocation leave an orphan alone. *)
Lemma orphan_grow (q : pid) (w : world) (s : ExecutionState) (t : option closure)
      (rs : list reaction) (cs : list (Params * pid)) :
  orphan q w ->
  (forall c, t = Some c -> c_resolve c <> q) ->
  ~ In (ThenResolve q) rs ->
  Forall (fun c => snd c <> q) cs ->
  orphan q (World s t (heap w ++ [Cell Pending rs]) (calls w ++ cs) (mq w)).
Proof.
  intros Ho Ht Hrs Hcs. pose proof (orphan_below _ _ Ho) as Hq.
  destruct Ho as (H1 & H2 & H3 & H4 & H5).
  repeat split; simpl; try assumption.
  - apply is_pending_lookup in H1 as [rs' Hl]. apply is_pending_lookup.
    simpl. rewrite lookup_old by exact Hq. now exists rs'.
  - unfold is_command_promise in *. simpl. rewrite existsb_app.
    apply orb_false_intro; [exact H2|].
    apply not_true_is_false. intros Hex. apply existsb_exists in Hex as [x [Hx Hxq]].
    rewrite Forall_forall in Hcs. apply Nat.eqb_eq in Hxq. exact (Hcs _ Hx Hxq).
  - apply Forall_app. split; [exact H4|]. constructor; [exact Hrs|constructor].
Qed.

Lemma orphan_run (q : pid) (ps : Params) (w : world) :
  orphan q w -> orphan q (snd (run ps w)) /\ fst (run ps w) <> q.
Proof.
  intros Ho. pose proof (orphan_below _ _ Ho) as Hq.
  pose proof Ho as (H1 & H2 & H3 & H4 & H5).
  destruct (Z.eq_dec (isRunning (state w)) 0%Z) as [Hidle|Hbusy].
  - rewrite (run_idle_eq _ _ Hidle). simpl. split; [|lia].
    apply orphan_grow; [exact Ho | exact H3 | |].
    + simpl. intros [Hx|[Hx|[]]]; discriminate.
    + constructor; [simpl; lia | constructor].
  - rewrite (run_busy_eq _ _ Hbusy). simpl. split; [|lia].
    replace (calls w) with (calls w ++ []) by apply app_nil_r.
    apply orphan_grow; [exact Ho | | simpl; tauto | constructor].
    intros c Hc. injection Hc as <-. simpl. lia.
Qed.

Lemma orphan_fire (q : pid) (c : closure) (w : world) :
  orphan q w -> c_resolve c <> q -> orphan q (fire c w).
Proof.
  intros Ho Hc. unfold fire.
  destruct (orphan_run q (c_params c) w Ho) as [Ho' _].
  destruct (run (c_params c) w) as [r w1]. simpl in Ho'.
  apply orphan_then; [exact Ho' | congruence].
Qed.

Lemma orphan_ladder_then (q : pid) (w : world) :
  orphan q w -> orphan q (ladder_then w).
Proof.
  intros Ho. rewrite ladder_then_eq. unfold clear_trigger.
  apply orphan_set_trigger; [|discriminate].
  unfold call_trigger. destruct (trigger w) as [c|] eqn:Ht; [|exact Ho].
  apply orphan_fire; [exact Ho|].
  destruct Ho as (_ & _ & H3 & _). exact (H3 c Ht).
Qed.

Lemma orphan_run_job (q : pid) (w : world) (j : job) (js : list job) :
  orphan q w -> mq w = j :: js -> orphan q (run_job j (set_mq js w)).
Proof.
  intros Ho Hmq.
  assert (fst j <> ThenResolve q /\ Forall (fun j => fst j <> ThenResolve q) js)
    as [Hj Hjs].
  { destruct Ho as (_ & _ & _ & _ & H5). rewrite Hmq in H5.
    inversion H5; subst. now split. }
  pose proof (orphan_set_mq q w js Ho Hjs) as Ho'.
  destruct j as [[| |q'] [v|e]]; simpl;
    first [ exact Ho'
          | now apply orphan_set_state
          | now apply orphan_ladder_then
          | apply orphan_settle; [exact Ho' | simpl in Hj; congruence] ].
Qed.

Lemma orphan_drain (q : pid) (fuel : nat) :
  forall w w', orphan q w -> drain fuel w = Some w' -> orphan q w'.
Proof.
  induction fuel as [|fuel IH]; intros w w' Ho Hd; simpl in Hd.
  - destruct (mq w); [now injection Hd as <- | discriminate].
  - destruct (mq w) as [|j js] eqn:Hmq; [now injection Hd as <-|].
    eapply IH; [|exact Hd]. now apply orphan_run_job.
Qed.

Lemma orphan_step (q : pid) (e : event) (w w' : world) :
  orphan q w -> step e w = Some w' -> orphan q w'.
Proof.
  intros Ho Hs. unfold step in Hs.
  destruct (apply_event e w) as [w1|] eqn:Ha; [|discriminate].
  eapply orphan_drain; [|exact Hs].
  destruct e as [ps|p o]; simpl in Ha.
  - injection Ha as <-. now apply orphan_run.
  - destruct (in_flight p w) eqn:Hfl; [|discriminate]. injection Ha as <-.
    apply orphan_settle; [exact Ho|]. intros ->.
    destruct Ho as (_ & H2 & _). unfold in_flight in Hfl.
    rewrite H2 in Hfl. discriminate.
Qed.

Lemma orphan_steps (q : pid) (es : list event) :
  forall w w', orphan q w -> steps es w = Some w' -> orphan q w'.
Proof.
  induction es as [|e es IH]; intros w w' Ho Hs; simpl in Hs.
  - now injection Hs as <-.
  - destruct (step e w) as [w1|] eqn:Hstep; [|discriminate].
    eapply IH; [|exact Hs]. eapply orphan_step; [exact Ho | exact Hstep].
Qed.

(** ** The promises of the queued callers *)

Lemma outer_below (q : pid) (w : world) : outer q w -> q < length (heap w).
Proof.
  intros [_ Hp]. apply is_pending_lookup in Hp as [rs Hl].
  now apply lookup_lt_Some in Hl.
Qed.

Lemma outer_grow (q : pid) (w : world) (s : ExecutionState) (t : option closure)
      (c : cell) (cs : list (Params * pid)) (m : list job) :
  outer q w ->
  Forall (fun x => snd x <> q) cs ->
  outer q (World s t (heap w ++ [c]) (calls w ++ cs) m).
Proof.
  intros Ho Hcs. pose proof (outer_below _ _ Ho) as Hq. destruct Ho as [H1 H2].
  split.
  - unfold is_command_promise in *. simpl. rewrite existsb_app.
    apply orb_false_intro; [exact H1|].
    apply not_true_is_false. intros Hex.
    apply existsb_exists in Hex as [x [Hx Hxq]].
    rewrite Forall_forall in Hcs. apply Nat.eqb_eq in Hxq. exact (Hcs _ Hx Hxq).
  - apply is_pending_lookup in H2 as [rs Hl]. apply is_pending_lookup.
    simpl. rewrite lookup_old by exact Hq. now exists rs.
Qed.

Lemma outer_insert (q p : pid) (w : world) (s : ExecutionState) (t : option closure)
      (c : cell) (m : list job) :
  outer q w ->
  p <> q ->
  outer q (World s t (<[p := c]> (heap w)) (calls w) m).
Proof.
  intros [H1 H2] Hne. split; [exact H1|].
  apply is_pending_lookup in H2 as [rs Hl]. apply is_pending_lookup.
  simpl. rewrite list_lookup_insert_ne by exact Hne. now exists rs.
Qed.

Lemma outer_not_in_flight (q p : pid) (w : world) :
  outer q w -> in_flight p w = true -> p <> q.
Proof.
  intros [H1 _] Hfl ->. unfold in_flight in Hfl. rewrite H1 in Hfl. discriminate.
Qed.

Lemma lookup_snoc_inv (h : list cell) (c c' : cell) (p : pid) :
  (h ++ [c]) !! p = Some c' ->
  (p < length h /\ h !! p = Some c') \/ (p = length h /\ c' = c).
Proof.
  intros Hl. destruct (Nat.lt_ge_cases p (length h)) as [Hlt|Hge].
  - left. split; [exact Hlt|]. now rewrite lookup_old in Hl.
  - right. assert (p = length h) as ->.
    { apply lookup_lt_Some in Hl. rewrite length_app in Hl. simpl in Hl. lia. }
    rewrite lookup_fresh in Hl. injection Hl as <-. now split.
Qed.

Lemma refs_ok_init : refs_ok init.
Proof.
  constructor; simpl.
  - discriminate.
  - intros p q rs Hl. rewrite lookup_nil in Hl. discriminate.
Qed.

Lemma refs_ok_run_idle (w : world) (ps : Params) :
  wf w -> refs_ok w ->
  refs_ok (World (on_start (state w)) (trigger w)
                 (heap w ++ [Cell Pending [OnSettle; LadderThen]])
                 (calls w ++ [(ps, length (heap w))]) []).
Proof.
  intros Hwf [Hslot Htail].
  assert (forall q, outer q w ->
            outer q (World (on_start (state w)) (trigger w)
                           (heap w ++ [Cell Pending [OnSettle; LadderThen]])
                           (calls w ++ [(ps, length (heap w))]) [])) as Hkeep.
  { intros q Ho. apply outer_grow; [exact Ho|].
    constructor; [|constructor]. simpl. pose proof (outer_below _ _ Ho). lia. }
  constructor; simpl.
  - intros c Hc. apply Hkeep. exact (Hslot c Hc).
  - intros p q rs Hl Hin.
    apply lookup_snoc_inv in Hl as [[_ Hl]|[_ Heq]].
    + destruct (Htail _ _ _ Hl Hin) as [Ho Hne]. split; [now apply Hkeep | exact Hne].
    + injection Heq as ->. simpl in Hin. destruct Hin as [H|[H|[]]]; discriminate.
Qed.

Lemma refs_ok_run_busy (w : world) (ps : Params) :
  wf w -> refs_ok w ->
  refs_ok (World (state w) (Some (Closure ps (length (heap w))))
                 (heap w ++ [new_cell]) (calls w) []).
Proof.
  intros Hwf [Hslot Htail].
  assert (forall q, outer q w ->
            outer q (World (state w) (Some (Closure ps (length (heap w))))
                           (heap w ++ [new_cell]) (calls w) [])) as Hkeep.
  { intros q Ho. rewrite <- (app_nil_r (calls w)).
    apply outer_grow; [exact Ho | constructor]. }
  constructor; simpl.
  - intros c Hc. injection Hc as <-. simpl. split.
    + apply not_true_is_false. intros Hcp.
      apply is_command_promise_In in Hcp as [ps' Hin]. simpl in Hin.
      pose proof (calls_below _ _ _ Hwf Hin). lia.
    + apply is_pending_lookup. exists []. simpl. apply lookup_fresh.
  - intros p q rs Hl Hin.
    apply lookup_snoc_inv in Hl as [[_ Hl]|[_ Heq]].
    + destruct (Htail _ _ _ Hl Hin) as [Ho _]. split; [now apply Hkeep|].
      intros c Hc. injection Hc as <-. simpl.
      pose proof (outer_below _ _ Ho). lia.
    + injection Heq as ->. destruct Hin.
Qed.

Lemma refs_ok_rejected (w : world) (p : pid) (e : Value) :
  wf w -> refs_ok w -> in_flight p w = true ->
  refs_ok (after_rejected p e w).
Proof.
  intros Hwf [Hslot Htail] Hfl. unfold after_rejected.
  constructor; simpl.
  - intros c Hc. specialize (Hslot c Hc).
    apply outer_insert; [exact Hslot|]. exact (outer_not_in_flight _ _ _ Hslot Hfl).
  - intros p' q rs Hl Hin. apply lookup_settled in Hl as [_ Hl].
    destruct (Htail _ _ _ Hl Hin) as [Ho Hne]. split; [|exact Hne].
    apply outer_insert; [exact Ho|]. exact (outer_not_in_flight _ _ _ Ho Hfl).
Qed.

Lemma settle_quietly_pending (h : list cell) (q0 p : pid) (o : settlement)
      (rs : list reaction) :
  settle_quietly q0 o h !! p = Some (Cell Pending rs) ->
  h !! p = Some (Cell Pending rs).
Proof.
  unfold settle_quietly.
  destruct (h !! q0) as [[[|o'] rs0]|] eqn:E; try (intros H; exact H).
  intros H. now apply lookup_settled in H as [_ H].
Qed.

Lemma settle_quietly_keeps (h : list cell) (q0 p : pid) (o : settlement) (c : cell) :
  h !! p = Some c -> p <> q0 -> settle_quietly q0 o h !! p = Some c.
Proof.
  intros Hl Hne. unfold settle_quietly.
  destruct (h !! q0) as [[[|o'] rs0]|] eqn:E; try exact Hl.
  rewrite list_lookup_insert_ne by congruence. exact Hl.
Qed.

Lemma resolve_tail_pending (tl : list reaction) (v : Value) (h : list cell)
      (p : pid) (rs : list reaction) :
  resolve_tail tl v h !! p = Some (Cell Pending rs) ->
  h !! p = Some (Cell Pending rs).
Proof.
  destruct tl as [|[| |q0] [|r tl]]; simpl; try (intros H; exact H).
  apply settle_quietly_pending.
Qed.

Lemma resolve_tail_keeps (tl : list reaction) (v : Value) (h : list cell)
      (p : pid) (c : cell) :
  h !! p = Some c ->
  ~ In (ThenResolve p) tl ->
  resolve_tail tl v h !! p = Some c.
Proof.
  intros Hl Hnot.
  destruct tl as [|[| |q0] [|r tl]]; simpl; try exact Hl.
  apply settle_quietly_keeps; [exact Hl|]. intros ->. apply Hnot. now left.
Qed.

Lemma refs_ok_fulfilled (w : world) (p : pid) (v : Value) (tl : list reaction) :
  wf w -> refs_ok w -> in_flight p w = true ->
  heap w !! p = Some (Cell Pending (OnSettle :: LadderThen :: tl)) ->
  refs_ok (after_fulfilled p v tl w).
Proof.
  intros Hwf [Hslot Htail] Hfl Hl.
  destruct (busy_in_flight _ _ Hwf Hfl) as (Hone & tl' & Hl' & Htl & Hothers).
  rewrite Hl in Hl'. injection Hl' as <-.
  assert (p < length (heap w)) as Hp by (now apply lookup_lt_Some in Hl).
  assert (forall p' rs,
            <[p := Cell (Settled (Fulfilled v)) []]> (heap w) !! p' = Some (Cell Pending rs) ->
            rs = []) as Hquiet.
  { intros p' rs H. apply lookup_settled in H as [Hne H].
    exact (Hothers _ _ Hne H). }
  unfold after_fulfilled. destruct (trigger w) as [c|] eqn:Ht.
  - constructor; simpl; [discriminate|].
    intros p' q rs Hl' Hin. split; [|discriminate].
    apply resolve_tail_pending in Hl'.
    apply lookup_snoc_inv in Hl' as [[_ Hl']|[_ Heq]].
    { apply Hquiet in Hl'. subst rs. destruct Hin. }
    injection Heq as ->. simpl in Hin.
    destruct Hin as [H|[H|[H|[]]]]; try discriminate. injection H as <-.
    pose proof (Hslot c eq_refl) as Ho.
    pose proof (outer_below _ _ Ho) as Hq.
    pose proof (outer_not_in_flight _ _ _ Ho Hfl) as Hne.
    destruct Ho as [Hc Hpend]. split.
    + unfold is_command_promise in *. simpl. rewrite existsb_app.
      apply orb_false_intro; [exact Hc|]. simpl.
      rewrite orb_false_r. apply Nat.eqb_neq. lia.
    + apply is_pending_lookup in Hpend as [rs Hq']. apply is_pending_lookup.
      exists rs. simpl. apply resolve_tail_keeps.
      * rewrite lookup_old by (now rewrite length_insert).
        rewrite list_lookup_insert_ne by exact Hne. exact Hq'.
      * intros Hin.
        assert (In (ThenResolve (c_resolve c)) (OnSettle :: LadderThen :: tl)) as Hin'
          by (right; right; exact Hin).
        destruct (Htail _ _ _ Hl Hin') as [_ Hdiff].
        exact (Hdiff c eq_refl eq_refl).
  - constructor; simpl; [discriminate|].
    intros p' q rs Hl' Hin. apply resolve_tail_pending in Hl'.
    apply Hquiet in Hl'. subst rs. destruct Hin.
Qed.

Lemma refs_ok_step (e : event) (w w' : world) :
  wf w -> refs_ok w -> step e w = Some w' -> refs_ok w'.
Proof.
  intros Hwf Hok Hstep. destruct e as [ps|p o].
  - destruct (Z.eq_dec (isRunning (state w)) 0%Z) as [Hidle|Hbusy].
    + rewrite (step_run_idle _ _ Hwf Hidle) in Hstep. injection Hstep as <-.
      now apply refs_ok_run_idle.
    + rewrite (step_run_busy _ _ Hwf Hbusy) in Hstep. injection Hstep as <-.
      now apply refs_ok_run_busy.
  - destruct (in_flight p w) eqn:Hfl.
    + destruct o as [v|e].
      * destruct (step_settle_fulfilled w p v Hwf Hfl) as (tl & Hl & Heq).
        rewrite Heq in Hstep. injection Hstep as <-.
        now apply refs_ok_fulfilled.
      * rewrite (step_settle_rejected _ _ _ Hwf Hfl) in Hstep.
        injection Hstep as <-. now apply refs_ok_rejected.
    + unfold step, apply_event in Hstep. rewrite Hfl in Hstep. discriminate.
Qed.

Lemma refs_ok_steps (es : list event) :
  forall w w', wf w -> refs_ok w -> steps es w = Some w' -> refs_ok w'.
Proof.
  induction es as [|e es IH]; intros w w' Hwf Hok Hsteps; simpl in Hsteps.
  - now injection Hsteps as <-.
  - destruct (step e w) as [w1|] eqn:Hstep; [|discriminate].
    eapply IH; [| |exact Hsteps].
    + eapply wf_step; [exact Hwf | exact Hstep].
    + eapply refs_ok_step; [exact Hwf | exact Hok | exact Hstep].
Qed.

Lemma refs_ok_reachable (w : world) : reachable w -> refs_ok w.
Proof.
  intros [es Hes]. eapply refs_ok_steps; [exact wf_init | exact refs_ok_init | exact Hes].
Qed.

Lemma wf_refs_below (w : world) (i : nat) (c : cell) (q : pid) :
  wf w ->
  heap w !! i = Some c ->
  In (ThenResolve q) (c_reactions c) ->
  q < length (heap w).
Proof.
  intros Hwf Hl Hin.
  destruct (wf_shape w Hwf) as [[_ [Hall _]]|[_ Hshape]].
  - rewrite Forall_lookup in Hall. rewrite (Hall _ _ Hl) in Hin. destruct Hin.
  - destruct Hshape as (cs & ps0 & p0 & tl & _ & Hp0 & Htl & Hothers & _).
    destruct (Nat.eq_dec i p0) as [Heq|Hne].
    + assert (c = Cell Pending (OnSettle :: LadderThen :: tl)) as ->.
      { subst i. apply (inj Some). now transitivity (heap w !! p0). }
      simpl in Hin.
      destruct Hin as [H|[H|Hin]]; try discriminate.
      destruct Htl as [->|[q0 [-> Hq0]]]; [destruct Hin|].
      destruct Hin as [H|[]]. now injection H as <-.
    + rewrite (Hothers _ _ Hne Hl) in Hin. destruct Hin.
Qed.

Lemma orphan_of_idle (w : world) (q : pid) :
  wf w ->
  isRunning (state w) = 0%Z ->
  outer q w ->
  (forall c, trigger w = Some c -> c_resolve c <> q) ->
  orphan q w.
Proof.
  intros Hwf Hidle [Hc Hp] Ht.
  destruct (wf_shape w Hwf) as [[_ [Hall _]]|[Hone _]]; [|lia].
  repeat split; try assumption.
  - eapply Forall_impl; [|exact Hall]. intros c Hq. simpl in Hq.
    unfold quiet in Hq. rewrite Hq. tauto.
  - rewrite (wf_mq w Hwf). constructor.
Qed.

(** C4: a call queued while an invocation is in flight gets a promise of
    its own; when another call overwrites the slot before the settlement,
    the closure that held the [resolve] of that promise is gone, and the
    promise stays pending whatever happens afterwards: the superseded
    caller is never notified. *)
Theorem C4_superseded_caller_never_settled
        (w : world) (p : pid) (ps1 ps2 : Params) :
  reachable w ->
  in_flight p w = true ->
  exists w1 w2,
    step (Run ps1) w = Some w1 /\
    trigger w1 = Some (Closure ps1 (fst (run ps1 w))) /\
    step (Run ps2) w1 = Some w2 /\
    trigger w2 = Some (Closure ps2 (fst (run ps2 w1))) /\
    fst (run ps2 w1) <> fst (run ps1 w) /\
    in_flight p w2 = true /\
    forall es w', steps es w2 = Some w' ->
                  status_of (fst (run ps1 w)) w' = Some Pending.
Proof.
  intros Hr Hfl. apply wf_reachable in Hr.
  pose proof (busy_of_in_flight _ _ Hr Hfl) as Hbusy.
  destruct (step_run_queued w p ps1 Hr Hfl)
    as (w1 & S1 & Hwf1 & Hfl1 & Hc1 & Hs1 & Ht1 & Hh1).
  pose proof (busy_of_in_flight _ _ Hwf1 Hfl1) as Hbusy1.
  destruct (step_run_queued w1 p ps2 Hwf1 Hfl1)
    as (w2 & S2 & Hwf2 & Hfl2 & Hc2 & Hs2 & Ht2 & Hh2).
  exists w1, w2.
  rewrite (run_busy_eq _ _ Hbusy), (run_busy_eq _ _ Hbusy1). simpl.
  assert (length (heap w1) = S (length (heap w))) as Hlen.
  { rewrite Hh1, length_app. simpl. lia. }
  repeat split; try assumption; [lia|].
  intros es w' Hsteps. apply orphan_pending.
  apply (orphan_steps _ es w2 w'); [|exact Hsteps].
  repeat split.
  - apply is_pending_lookup. exists []. rewrite Hh2, Hh1.
    rewrite lookup_old by (rewrite length_app; simpl; lia).
    apply lookup_fresh.
  - apply not_true_is_false. intros Hcp.
    apply is_command_promise_In in Hcp as [ps' Hin].
    rewrite Hc2, Hc1 in Hin. pose proof (calls_below _ _ _ Hr Hin). lia.
  - intros c Hc. rewrite Ht2 in Hc. injection Hc as <-. simpl. lia.
  - rewrite Hh2, Hh1. repeat (apply Forall_app; split).
    + apply Forall_lookup. intros i c Hi Hin.
      pose proof (wf_refs_below _ _ _ _ Hr Hi Hin). lia.
    + constructor; [simpl; tauto | constructor].
    + constructor; [simpl; tauto | constructor].
  - rewrite (wf_mq w2 Hwf2). constructor.
Qed.

Lemma C4_superseded_caller_never_settled_witness :
  reachable one_queued /\
  in_flight 0 one_queued = true /\
  exists w1 w2,
    step (Run [3]) one_queued = Some w1 /\
    trigger w1 = Some (Closure [3] (fst (run [3] one_queued))) /\
    step (Run [4]) w1 = Some w2 /\
    trigger w2 = Some (Closure [4] (fst (run [4] w1))) /\
    fst (run [4] w1) <> fst (run [3] one_queued) /\
    in_flight 0 w2 = true /\
    forall es w', steps es w2 = Some w' ->
                  status_of (fst (run [3] one_queued)) w' = Some Pending.
Proof.
  split; [exact one_queued_reachable|]. split; [reflexivity|].
  apply (C4_superseded_caller_never_settled one_queued 0 [3] [4]);
    [exact one_queued_reachable | reflexivity].
Defined.

(** C2, as the code has it: a queued call survives in the slot, the
    invocation in flight is fulfilled and the follow-up starts; when the
    follow-up is then rejected, the promise handed to the queued caller is
    not rejected: [.then(resolve)] forwards a fulfilment only, and the
    promise stays pending whatever happens afterwards.  The failure never
    reaches that caller. *)
Theorem C2_follow_up_failure_never_reaches_caller
        (w : world) (p : pid) (c : closure) (v e : Value) :
  reachable w ->
  in_flight p w = true ->
  trigger w = Some c ->
  exists w1 w2,
    step (Settle p (Fulfilled v)) w = Some w1 /\
    invoked w1 = invoked w ++ [c_params c] /\
    in_flight (length (heap w)) w1 = true /\
    step (Settle (length (heap w)) (Rejected e)) w1 = Some w2 /\
    isRunning (state w2) = 0%Z /\
    forall es w', steps es w2 = Some w' ->
                  status_of (c_resolve c) w' = Some Pending.
Proof.
  intros Hr Hfl Ht. pose proof (refs_ok_reachable _ Hr) as Hok.
  apply wf_reachable in Hr.
  destruct (step_settle_fulfilled w p v Hr Hfl) as (tl & Hl & S1).
  pose proof (wf_after_fulfilled w p v tl Hr Hfl Hl) as Hwf1.
  pose proof (refs_ok_fulfilled w p v tl Hr Hok Hfl Hl) as Hok1.
  destruct (busy_in_flight _ _ Hr Hfl) as (_ & tl' & Hl' & Htl & _).
  rewrite Hl in Hl'. injection Hl' as <-.
  set (w1 := after_fulfilled p v tl w) in *.
  set (n := length (heap w)).
  assert (heap w1 !! n =
          Some (Cell Pending [OnSettle; LadderThen; ThenResolve (c_resolve c)])) as Hn.
  { unfold w1, after_fulfilled. rewrite Ht. simpl. apply resolve_tail_keeps.
    - replace n with
        (length (<[p := Cell (Settled (Fulfilled v)) []]> (heap w)))
        by apply length_insert.
      apply lookup_fresh.
    - intros Hin. destruct Htl as [->|[q0 [-> Hq0]]]; [destruct Hin|].
      destruct Hin as [H|[]]. injection H as ->. unfold n in Hq0. lia. }
  assert (calls w1 = calls w ++ [(c_params c, n)]) as Hc1.
  { unfold w1, after_fulfilled. now rewrite Ht. }
  assert (trigger w1 = None) as Ht1.
  { unfold w1, after_fulfilled. now rewrite Ht. }
  assert (in_flight n w1 = true) as Hfl1.
  { eapply (in_flight_intro _ _ (c_params c)); [|exact Hn].
    rewrite Hc1. apply in_or_app. right. now left. }
  exists w1, (after_rejected n e w1).
  split; [exact S1|].
  split; [unfold invoked; now rewrite Hc1, map_app|].
  split; [exact Hfl1|].
  split; [now apply step_settle_rejected|].
  pose proof (wf_after_rejected w1 n e Hwf1 Hfl1) as Hwf2.
  destruct (busy_in_flight _ _ Hwf1 Hfl1) as (Hone1 & _).
  assert (isRunning (state (after_rejected n e w1)) = 0%Z) as Hidle2
    by (simpl; lia).
  split; [exact Hidle2|].
  intros es w' Hsteps. apply orphan_pending.
  apply (orphan_steps _ es (after_rejected n e w1) w'); [|exact Hsteps].
  apply orphan_of_idle; [exact Hwf2 | exact Hidle2 | |].
  - destruct (tail_outer w1 Hok1 n (c_resolve c) _ Hn) as [Ho _];
      [right; right; now left|].
    apply outer_insert; [exact Ho|]. exact (outer_not_in_flight _ _ _ Ho Hfl1).
  - simpl. rewrite Ht1. discriminate.
Qed.

Lemma C2_follow_up_failure_never_reaches_caller_witness :
  reachable one_queued /\
  in_flight 0 one_queued = true /\
  trigger one_queued = Some (Closure [2] 1) /\
  exists w1 w2,
    step (Settle 0 (Fulfilled 5)) one_queued = Some w1 /\
    invoked w1 = invoked one_queued ++ [c_params (Closure [2] 1)] /\
    in_flight (length (heap one_queued)) w1 = true /\
    step (Settle (length (heap one_queued)) (Rejected 9)) w1 = Some w2 /\
    isRunning (state w2) = 0%Z /\
    forall es w', steps es w2 = Some w' ->
                  status_of (c_resolve (Closure [2] 1)) w' = Some Pending.
Proof.
  split; [exact one_queued_reachable|]. split; [reflexivity|].
  split; [reflexivity|].
  apply (C2_follow_up_failure_never_reaches_caller one_queued 0 (Closure [2] 1) 5 9);
    [exact one_queued_reachable | reflexivity | reflexivity].
Defined.

(** C5, as the code has it: the callback that runs at the fulfilment
    first calls the stored closure, line 20, which starts the follow-up
    while the slot still holds that closure, and only then empties the
    slot, line 21.  The slot is cleared right after the follow-up has
    started, within the same callback, not before. *)
Theorem C5_slot_cleared_after_follow_up_starts (w : world) (c : closure) (v : Value) :
  isRunning (state w) = 0%Z ->
  trigger w = Some c ->
  run_job (LadderThen, Fulfilled v) w = exec_body ladder_then_body w /\
  body_trace ladder_then_body w = [call_trigger w; clear_trigger (call_trigger w)] /\
  invoked (call_trigger w) = invoked w ++ [c_params c] /\
  trigger (call_trigger w) = Some c /\
  invoked (clear_trigger (call_trigger w)) = invoked w ++ [c_params c] /\
  trigger (clear_trigger (call_trigger w)) = None.
Proof.
  intros Hidle Ht.
  split; [reflexivity|]. split; [reflexivity|].
  unfold call_trigger. rewrite Ht, (fire_idle_eq _ _ Hidle).
  unfold invoked. simpl. rewrite map_app. simpl.
  repeat split. exact Ht.
Qed.

Lemma C5_slot_cleared_after_follow_up_starts_witness :
  isRunning (state at_callback) = 0%Z /\
  trigger at_callback = Some (Closure [2] 1) /\
  run_job (LadderThen, Fulfilled 5) at_callback =
    exec_body ladder_then_body at_callback /\
  body_trace ladder_then_body at_callback =
    [call_trigger at_callback; clear_trigger (call_trigger at_callback)] /\
  invoked (call_trigger at_callback) =
    invoked at_callback ++ [c_params (Closure [2] 1)] /\
  trigger (call_trigger at_callback) = Some (Closure [2] 1) /\
  invoked (clear_trigger (call_trigger at_callback)) =
    invoked at_callback ++ [c_params (Closure [2] 1)] /\
  trigger (clear_trigger (call_trigger at_callback)) = None.
Proof.
  split; [reflexivity|]. split; [reflexivity|].
  apply (C5_slot_cleared_after_follow_up_starts at_callback (Closure [2] 1) 5);
    reflexivity.
Defined.

(** C5 as worded fails: after line 20 the follow-up has started and the
    slot still holds the closure. *)
Lemma C5_slot_not_cleared_before_start :
  ~ slot_cleared_before_start at_callback.
Proof.
  intros H. specialize (H (call_trigger at_callback)).
  assert (trigger (call_trigger at_callback) = None) as Hnone.
  { apply H; [now left | vm_compute; lia]. }
  vm_compute in Hnone. discriminate.
Qed.

Lemma at_callback_in_drain :
  step (Settle 0 (Fulfilled 5)) one_queued =
  Some (run_job (LadderThen, Fulfilled 5) at_callback).
Proof. vm_compute. reflexivity. Qed.

(** * InfiniteLoader: the claims *)

Module LoaderFacts.
Import Loader.

(** The tests of InfiniteLoader.spec.js, replayed on the model; of
    'refreshes', the items before [refresh()] and after the last wait. *)

Example test_loads_list :
  (serve 100 (next (create 10)) ≫= fun l => serve 100 (next l))
    ≫= (fun l => Some (length (items l))) = Some 20.
Proof. vm_compute. reflexivity. Qed.

Example test_refreshes :
  (serve 100 (next (create 10)) ≫= fun l1 =>
   serve 100 (next l1) ≫= fun l2 =>
   serve 100 (refresh l2) ≫= fun l3 =>
   Some (length (items l2), length (items l3))) = Some (20, 10).
Proof. vm_compute. reflexivity. Qed.

Example test_handles_multiple_next :
  (serve 100 (next (next (create 10))) ≫= fun l1 =>
   serve 100 (next l1) ≫= fun l2 =>
   Some (length (items l2), items l2 !! 19)) = Some (20, Some 19).
Proof. vm_compute. reflexivity. Qed.

Example test_handles_multiple_refreshes :
  let l1 := refresh (create 10) in
  let l3 := refresh (refresh l1) in
  length (requests l1) = 1 /\
  length (requests l3) = 1 /\
  (length ∘ requests) <$> settle (Page []) l3 = Some 2.
Proof. vm_compute. repeat split. Qed.

Lemma refresh_running (l : loader) :
  isRunning l = true ->
  refresh l =
  Loader_ (items l) (pointer l) (perStep l) (isFinished l) (phase_of l) true
          (requests l).
Proof.
  intros Hrun. unfold refresh. now rewrite Hrun.
Qed.

Lemma refreshes_running (l : loader) (n : nat) :
  isRunning l = true ->
  Nat.iter (S n) refresh l =
  Loader_ (items l) (pointer l) (perStep l) (isFinished l) (phase_of l) true
          (requests l).
Proof.
  intros Hrun. induction n as [|n IH].
  - simpl. now apply refresh_running.
  - change (Nat.iter (S (S n)) refresh l) with (refresh (Nat.iter (S n) refresh l)).
    rewrite IH. rewrite refresh_running; [reflexivity|exact Hrun].
Qed.

Lemma next_running (l : loader) : isRunning l = true -> next l = l.
Proof.
  intros Hrun. unfold next. now rewrite Hrun.
Qed.

Lemma running_unfinished_step (e : event) (l l' : loader) :
  running_unfinished l -> step e l = Some l' -> running_unfinished l'.
Proof.
  unfold running_unfinished. intros Hinv Hstep.
  destruct l as [it ptr per fin ph pend reqs].
  destruct e as [| |o]; simpl in Hstep.
  - injection Hstep as <-. unfold next, isRunning in *. simpl in *.
    destruct ph; simpl in *; try exact Hinv.
    destruct fin; simpl; [discriminate | reflexivity].
  - injection Hstep as <-. unfold refresh, isRunning in *. simpl in *.
    destruct ph; simpl in *; try exact Hinv. reflexivity.
  - unfold settle in Hstep. simpl in Hstep.
    destruct ph; [discriminate| |];
      injection Hstep as <-;
      destruct o as [elems|]; simpl;
      destruct pend; simpl; unfold isRunning; simpl;
      first [reflexivity | discriminate].
Qed.

Lemma running_unfinished_steps (es : list event) :
  forall l l', running_unfinished l -> steps es l = Some l' -> running_unfinished l'.
Proof.
  induction es as [|e es IH]; intros l l' Hinv Hsteps; simpl in Hsteps.
  - now injection Hsteps as <-.
  - destruct (step e l) as [l1|] eqn:Hstep; [|discriminate].
    eapply IH; [|exact Hsteps]. eapply running_unfinished_step; eassumption.
Qed.

Lemma running_unfinished_reachable (l : loader) :
  reachable l -> running_unfinished l.
Proof.
  intros (per & es & Hes). eapply running_unfinished_steps; [|exact Hes].
  intros H. reflexivity.
Qed.

(** C7: any number of [refresh()] calls made while a load is running
    issue no request and leave one pending refresh in the slot, a
    boolean; and when the running load settles, exactly one more load
    starts, the refresh, whatever the number of calls was. *)
Theorem C7_refreshes_coalesce (l : loader) (n : nat) (o : outcome) :
  isRunning l = true ->
  0 < n ->
  requests (Nat.iter n refresh l) = requests l /\
  pendingRefresh (Nat.iter n refresh l) = true /\
  phase_of (Nat.iter n refresh l) = phase_of l /\
  exists l',
    settle o (Nat.iter n refresh l) = Some l' /\
    requests l' = requests l ++ [(0, perStep l)] /\
    pendingRefresh l' = false /\
    phase_of l' = Refreshing.
Proof.
  intros Hrun Hn. destruct n as [|n]; [lia|].
  rewrite (refreshes_running l n Hrun). simpl.
  repeat split.
  unfold settle. simpl. unfold isRunning in Hrun.
  destruct (phase_of l); [discriminate | |];
    eexists; (split; [reflexivity|]); destruct o; simpl; repeat split.
Qed.

Lemma C7_refreshes_coalesce_witness :
  isRunning (next (create 10)) = true /\
  0 < 3 /\
  requests (Nat.iter 3 refresh (next (create 10))) = requests (next (create 10)) /\
  pendingRefresh (Nat.iter 3 refresh (next (create 10))) = true /\
  phase_of (Nat.iter 3 refresh (next (create 10))) = phase_of (next (create 10)) /\
  exists l',
    settle (Page []) (Nat.iter 3 refresh (next (create 10))) = Some l' /\
    requests l' = requests (next (create 10)) ++ [(0, perStep (next (create 10)))] /\
    pendingRefresh l' = false /\
    phase_of l' = Refreshing.
Proof.
  split; [reflexivity|]. split; [lia|].
  apply (C7_refreshes_coalesce (next (create 10)) 3 (Page [])); [reflexivity | lia].
Defined.

(** C8: a [next()] call made while a load is in flight changes nothing
    at all, however often it is made: no request, nothing queued.  So
    when that load settles, with no refresh pending, no further request
    starts by itself; a [next()] called after the settlement, on a
    loader that is not finished, is the one that requests the next
    page. *)
Theorem C8_next_ignored_while_running (l : loader) (n : nat) (o : outcome) :
  isRunning l = true ->
  next l = l /\
  Nat.iter n next l = l /\
  requests (Nat.iter n next l) = requests l /\
  (pendingRefresh l = false ->
   exists l',
     settle o (Nat.iter n next l) = Some l' /\
     isRunning l' = false /\
     requests l' = requests l /\
     (isFinished l' = false ->
      requests (next l') = requests l ++ [(pointer l', perStep l)])).
Proof.
  intros Hrun.
  assert (Nat.iter n next l = l) as Hiter.
  { induction n as [|n IH]; [reflexivity|].
    simpl. rewrite IH. now apply next_running. }
  split; [now apply next_running|]. split; [exact Hiter|].
  rewrite Hiter. split; [reflexivity|]. intros Hpend.
  unfold settle. unfold isRunning in Hrun.
  destruct l as [it ptr per fin ph pend reqs]. simpl in *. subst pend.
  destruct ph; [discriminate | |];
    eexists; (split; [reflexivity|]); destruct o; simpl;
    (split; [reflexivity|]); (split; [reflexivity|]);
    intros Hfin; unfold next, isRunning; simpl in *; rewrite Hfin; reflexivity.
Qed.

Lemma C8_next_ignored_while_running_witness :
  isRunning (next (create 10)) = true /\
  next (next (create 10)) = next (create 10) /\
  Nat.iter 2 next (next (create 10)) = next (create 10) /\
  requests (Nat.iter 2 next (next (create 10))) = requests (next (create 10)) /\
  (pendingRefresh (next (create 10)) = false ->
   exists l',
     settle (Page (seq 0 10)) (Nat.iter 2 next (next (create 10))) = Some l' /\
     isRunning l' = false /\
     requests l' = requests (next (create 10)) /\
     (isFinished l' = false ->
      requests (next l') =
      requests (next (create 10)) ++ [(pointer l', perStep (next (create 10)))])).
Proof.
  split; [reflexivity|].
  apply (C8_next_ignored_while_running (next (create 10)) 2 (Page (seq 0 10))).
  reflexivity.
Defined.

(** C9: when the page of the load in flight arrives, [isFinished] is true
    afterwards exactly when the page has fewer than [perStep] elements;
    a page of exactly [perStep] elements leaves the loader unfinished.
    With no refresh pending this is the state the settlement leaves. *)
Theorem C9_finished_iff_short_page (l : loader) (elems : list Value) :
  reachable l ->
  isRunning l = true ->
  (isFinished (apply_page (phase_of l) elems l) = true <->
   length elems < perStep l) /\
  (length elems = perStep l ->
   isFinished (apply_page (phase_of l) elems l) = false) /\
  (pendingRefresh l = false ->
   exists l',
     settle (Page elems) l = Some l' /\
     (isFinished l' = true <-> length elems < perStep l)).
Proof.
  intros Hr Hrun.
  pose proof (running_unfinished_reachable l Hr Hrun) as Hfin.
  assert (isFinished (apply_page (phase_of l) elems l) = true <->
          length elems < perStep l) as Hiff.
  { simpl. rewrite Hfin.
    destruct (Nat.ltb_spec (length elems) (perStep l)); split;
      first [discriminate | lia | reflexivity | (intros; assumption)]. }
  split; [exact Hiff|]. split.
  - intros Heq. simpl. rewrite Hfin.
    destruct (Nat.ltb_spec (length elems) (perStep l)); [lia | reflexivity].
  - intros Hpend. unfold settle. unfold isRunning in Hrun.
    destruct (phase_of l) eqn:Hph; [discriminate | |];
      simpl; rewrite Hpend; eexists; (split; [reflexivity|]);
      simpl in *; exact Hiff.
Qed.

Lemma C9_finished_iff_short_page_witness :
  reachable (next (create 10)) /\
  isRunning (next (create 10)) = true /\
  (isFinished (apply_page (phase_of (next (create 10))) [1; 2; 3] (next (create 10))) = true <->
   length [1; 2; 3] < perStep (next (create 10))) /\
  (length [1; 2; 3] = perStep (next (create 10)) ->
   isFinished (apply_page (phase_of (next (create 10))) [1; 2; 3] (next (create 10))) = false) /\
  (pendingRefresh (next (create 10)) = false ->
   exists l',
     settle (Page [1; 2; 3]) (next (create 10)) = Some l' /\
     (isFinished l' = true <-> length [1; 2; 3] < perStep (next (create 10)))).
Proof.
  assert (reachable (next (create 10))) as Hr.
  { exists 10, [Next]. reflexivity. }
  split; [exact Hr|]. split; [reflexivity|].
  apply (C9_finished_iff_short_page (next (create 10)) [1; 2; 3]);
    [exact Hr | reflexivity].
Defined.

End LoaderFacts.

(** * LadderExecutor: further properties of [run] *)

(** ** A settled promise stays as it is *)

Lemma settled_then (q p : pid) (o : settlement) (r : reaction) (w : world) :
  status_of q w = Some (Settled o) ->
  status_of q (then_ p r w) = Some (Settled o).
Proof.
  intros Hq. unfold then_.
  destruct (heap w !! p) as [[[|o'] rs]|] eqn:E; try exact Hq.
  unfold status_of in *. simpl.
  destruct (Nat.eq_dec p q) as [Heq|Hne].
  - exfalso. subst p. unfold pid in *. rewrite E in Hq. discriminate.
  - rewrite list_lookup_insert_ne by exact Hne. exact Hq.
Qed.

Lemma settled_settle (q p : pid) (o o' : settlement) (w : world) :
  status_of q w = Some (Settled o) ->
  status_of q (settle_promise p o' w) = Some (Settled o).
Proof.
  intros Hq. unfold settle_promise.
  destruct (heap w !! p) as [[[|o''] rs]|] eqn:E; try exact Hq.
  unfold status_of in *. simpl.
  destruct (Nat.eq_dec p q) as [Heq|Hne].
  - exfalso. subst p. unfold pid in *. rewrite E in Hq. discriminate.
  - rewrite list_lookup_insert_ne by exact Hne. exact Hq.
Qed.

Lemma settled_below (q : pid) (o : settlement) (w : world) :
  status_of q w = Some (Settled o) -> q < length (heap w).
Proof.
  unfold status_of. intros Hq.
  destruct (heap w !! q) as [c|] eqn:E; [|discriminate].
  now apply lookup_lt_Some in E.
Qed.

Lemma settled_run (q : pid) (o : settlement) (ps : Params) (w : world) :
  status_of q w = Some (Settled o) ->
  status_of q (snd (run ps w)) = Some (Settled o).
Proof.
  intros Hq. pose proof (settled_below _ _ _ Hq) as Hlt.
  destruct (Z.eq_dec (isRunning (state w)) 0%Z) as [Hidle|Hbusy].
  - rewrite (run_idle_eq _ _ Hidle). unfold status_of in *. simpl.
    now rewrite lookup_old.
  - rewrite (run_busy_eq _ _ Hbusy). unfold status_of in *. simpl.
    now rewrite lookup_old.
Qed.

Lemma settled_run_job (q : pid) (o : settlement) (j : job) (w : world) :
  status_of q w = Some (Settled o) ->
  status_of q (run_job j w) = Some (Settled o).
Proof.
  intros Hq. destruct j as [[| |q'] [v|e]]; simpl; try exact Hq.
  - rewrite ladder_then_eq. unfold clear_trigger, call_trigger.
    destruct (trigger w) as [c|]; [|exact Hq].
    unfold fire. pose proof (settled_run q o (c_params c) w Hq) as Hr.
    destruct (run (c_params c) w) as [r w1]. simpl in Hr.
    exact (settled_then q r o _ w1 Hr).
  - now apply settled_settle.
Qed.

Lemma settled_drain (q : pid) (o : settlement) (fuel : nat) :
  forall w w',
    status_of q w = Some (Settled o) ->
    drain fuel w = Some w' ->
    status_of q w' = Some (Settled o).
Proof.
  induction fuel as [|fuel IH]; intros w w' Hq Hd; simpl in Hd.
  - destruct (mq w); [now injection Hd as <- | discriminate].
  - destruct (mq w) as [|j js] eqn:Hmq; [now injection Hd as <-|].
    eapply IH; [|exact Hd]. now apply settled_run_job.
Qed.

Lemma settled_step (q : pid) (o : settlement) (e : event) (w w' : world) :
  status_of q w = Some (Settled o) ->
  step e w = Some w' ->
  status_of q w' = Some (Settled o).
Proof.
  intros Hq Hs. unfold step in Hs.
  destruct (apply_event e w) as [w1|] eqn:Ha; [|discriminate].
  eapply settled_drain; [|exact Hs].
  destruct e as [ps|p o']; simpl in Ha.
  - injection Ha as <-. now apply settled_run.
  - destruct (in_flight p w); [|discriminate]. injection Ha as <-.
    now apply settled_settle.
Qed.

Lemma settled_steps (q : pid) (o : settlement) (es : list event) :
  forall w w',
    status_of q w = Some (Settled o) ->
    steps es w = Some w' ->
    status_of q w' = Some (Settled o).
Proof.
  induction es as [|e es IH]; intros w w' Hq Hs; simpl in Hs.
  - now injection Hs as <-.
  - destruct (step e w) as [w1|] eqn:Hstep; [|discriminate].
    eapply IH; [|exact Hs]. eapply settled_step; [exact Hq | exact Hstep].
Qed.

(** ** The follow-up *)

Lemma status_of_cell (h : list cell) (q : pid) (c : cell) :
  h !! q = Some c -> c_status <$> h !! q = Some (c_status c).
Proof.
  intros ->. reflexivity.
Qed.

Lemma settle_quietly_settled (h : list cell) (q0 p : pid) (o o' : settlement)
      (rs : list reaction) :
  h !! p = Some (Cell (Settled o) rs) ->
  settle_quietly q0 o' h !! p = Some (Cell (Settled o) rs).
Proof.
  intros Hp. unfold settle_quietly.
  destruct (h !! q0) as [[[|o''] rs0]|] eqn:E; try exact Hp.
  destruct (Nat.eq_dec q0 p) as [Heq|Hne].
  - exfalso. subst q0. unfold pid in *. rewrite Hp in E. discriminate.
  - rewrite list_lookup_insert_ne by exact Hne. exact Hp.
Qed.

(** The invocation in flight is fulfilled while a follow-up waits in the
    slot: the follow-up is the next invocation, it is in flight, and its
    promise carries the [resolve] of the caller that queued it. *)
Lemma follow_up_started (w : world) (p : pid) (c : closure) (v : Value) :
  wf w -> refs_ok w ->
  in_flight p w = true ->
  trigger w = Some c ->
  exists w1,
    step (Settle p (Fulfilled v)) w = Some w1 /\
    wf w1 /\ refs_ok w1 /\
    trigger w1 = None /\
    isRunning (state w1) = 1%Z /\
    calls w1 = calls w ++ [(c_params c, length (heap w))] /\
    heap w1 !! length (heap w) =
      Some (Cell Pending [OnSettle; LadderThen; ThenResolve (c_resolve c)]) /\
    in_flight (length (heap w)) w1 = true /\
    status_of p w1 = Some (Settled (Fulfilled v)) /\
    outer (c_resolve c) w1.
Proof.
  intros Hwf Hok Hfl Ht.
  destruct (step_settle_fulfilled w p v Hwf Hfl) as (tl & Hl & S1).
  pose proof (wf_after_fulfilled w p v tl Hwf Hfl Hl) as Hwf1.
  pose proof (refs_ok_fulfilled w p v tl Hwf Hok Hfl Hl) as Hok1.
  destruct (busy_in_flight _ _ Hwf Hfl) as (Hone & tl' & Hl' & Htl & _).
  rewrite Hl in Hl'. injection Hl' as <-.
  assert (p < length (heap w)) as Hp by (now apply lookup_lt_Some in Hl).
  exists (after_fulfilled p v tl w).
  assert (heap (after_fulfilled p v tl w) !! length (heap w) =
          Some (Cell Pending [OnSettle; LadderThen; ThenResolve (c_resolve c)])) as Hn.
  { unfold after_fulfilled. rewrite Ht. simpl. apply resolve_tail_keeps.
    - pose proof (lookup_fresh (<[p := Cell (Settled (Fulfilled v)) []]> (heap w))
                    (Cell Pending [OnSettle; LadderThen; ThenResolve (c_resolve c)]))
        as Hfresh.
      rewrite length_insert in Hfresh. exact Hfresh.
    - intros Hin. destruct Htl as [->|[q0 [-> Hq0]]]; [destruct Hin|].
      destruct Hin as [H|[]]. injection H as ->. lia. }
  assert (calls (after_fulfilled p v tl w) =
          calls w ++ [(c_params c, length (heap w))]) as Hc1.
  { unfold after_fulfilled. now rewrite Ht. }
  assert (in_flight (length (heap w)) (after_fulfilled p v tl w) = true) as Hfl1.
  { eapply (in_flight_intro _ _ (c_params c)); [|exact Hn].
    rewrite Hc1. apply in_or_app. right. now left. }
  split; [exact S1|]. split; [exact Hwf1|]. split; [exact Hok1|].
  split; [unfold after_fulfilled; now rewrite Ht|].
  split; [exact (proj1 (busy_in_flight _ _ Hwf1 Hfl1))|].
  split; [exact Hc1|]. split; [exact Hn|]. split; [exact Hfl1|].
  split.
  - unfold status_of, after_fulfilled. rewrite Ht. simpl.
    apply (status_of_cell _ _ (Cell (Settled (Fulfilled v)) [])).
    assert ((<[p := Cell (Settled (Fulfilled v)) []]> (heap w) ++
             [Cell Pending [OnSettle; LadderThen; ThenResolve (c_resolve c)]]) !! p
            = Some (Cell (Settled (Fulfilled v)) [])) as Hsp.
    { rewrite lookup_old by (now rewrite length_insert).
      now apply list_lookup_insert_eq. }
    destruct Htl as [->|[q0 [-> Hq0]]]; simpl; [exact Hsp|].
    now apply settle_quietly_settled.
  - destruct (tail_outer _ Hok1 _ (c_resolve c) _ Hn) as [Ho _];
      [right; right; now left | exact Ho].
Qed.

(** The follow-up is fulfilled: the promise of the caller that queued it
    is fulfilled with the same value. *)
Lemma follow_up_fulfilled (w : world) (n q : pid) (v : Value) :
  wf w ->
  in_flight n w = true ->
  trigger w = None ->
  heap w !! n = Some (Cell Pending [OnSettle; LadderThen; ThenResolve q]) ->
  outer q w ->
  exists w',
    step (Settle n (Fulfilled v)) w = Some w' /\
    wf w' /\
    isRunning (state w') = 0%Z /\
    trigger w' = None /\
    calls w' = calls w /\
    status_of q w' = Some (Settled (Fulfilled v)).
Proof.
  intros Hwf Hfl Ht Hn Ho.
  destruct (step_settle_fulfilled w n v Hwf Hfl) as (tl & Hl & S1).
  assert (tl = [ThenResolve q]) as ->.
  { unfold pid in *. rewrite Hn in Hl. now injection Hl as <-. }
  pose proof (wf_after_fulfilled w n v _ Hwf Hfl Hl) as Hwf1.
  destruct (busy_in_flight _ _ Hwf Hfl) as (Hone & _).
  exists (after_fulfilled n v [ThenResolve q] w).
  split; [exact S1|]. split; [exact Hwf1|].
  unfold after_fulfilled. rewrite Ht. simpl.
  split; [lia|]. split; [reflexivity|]. split; [reflexivity|].
  pose proof (outer_not_in_flight _ _ _ Ho Hfl) as Hne.
  destruct Ho as [_ Hpend]. apply is_pending_lookup in Hpend as [rs Hq].
  unfold status_of. simpl.
  apply (status_of_cell _ _ (Cell (Settled (Fulfilled v)) [])).
  assert (<[n := Cell (Settled (Fulfilled v)) []]> (heap w) !! q
          = Some (Cell Pending rs)) as Hq'.
  { rewrite list_lookup_insert_ne by exact Hne. exact Hq. }
  unfold settle_quietly.
  replace (<[n := Cell (Settled (Fulfilled v)) []]> (heap w) !! q)
    with (Some (Cell Pending rs)).
  apply list_lookup_insert_eq.
  rewrite length_insert. now apply lookup_lt_Some in Hq.
Qed.

Lemma status_after_fulfilled (w : world) (p : pid) (v : Value) (tl : list reaction) :
  p < length (heap w) ->
  status_of p (after_fulfilled p v tl w) = Some (Settled (Fulfilled v)).
Proof.
  intros Hp. unfold status_of.
  apply (status_of_cell _ _ (Cell (Settled (Fulfilled v)) [])).
  assert (<[p := Cell (Settled (Fulfilled v)) []]> (heap w) !! p
          = Some (Cell (Settled (Fulfilled v)) [])) as Hsp
    by (now apply list_lookup_insert_eq).
  assert (forall h, h !! p = Some (Cell (Settled (Fulfilled v)) []) ->
                    resolve_tail tl v h !! p = Some (Cell (Settled (Fulfilled v)) []))
    as Hkeep.
  { intros h Hh. destruct tl as [|[| |q0] [|r tl]]; simpl; try exact Hh.
    now apply settle_quietly_settled. }
  unfold after_fulfilled. destruct (trigger w); simpl; apply Hkeep.
  - rewrite lookup_old by (now rewrite length_insert). exact Hsp.
  - exact Hsp.
Qed.

Lemma queue_many (p : pid) (qs : list Params) :
  forall w,
    wf w -> in_flight p w = true ->
    exists w1,
      steps (map Run qs) w = Some w1 /\
      wf w1 /\
      in_flight p w1 = true /\
      calls w1 = calls w /\
      c_params <$> trigger w1 =
        match qs with
        | [] => c_params <$> trigger w
        | _ => Some (last qs [])
        end.
Proof.
  induction qs as [|a qs IH]; intros w Hwf Hfl.
  - exists w. simpl. split; [reflexivity|]. split; [exact Hwf|].
    split; [exact Hfl|]. split; reflexivity.
  - destruct (step_run_queued w p a Hwf Hfl)
      as (w' & S1 & Hwf' & Hfl' & Hc' & _ & Ht' & _).
    destruct (IH w' Hwf' Hfl') as (w1 & Ss & Hwf1 & Hfl1 & Hc1 & Ht1).
    exists w1. simpl map. simpl steps. rewrite S1.
    split; [exact Ss|]. split; [exact Hwf1|]. split; [exact Hfl1|].
    split; [now rewrite Hc1|].
    rewrite Ht1. destruct qs as [|b qs]; [now rewrite Ht'|reflexivity].
Qed.

Lemma known_step (e : event) (w w' : world) :
  wf w ->
  step e w = Some w' ->
  length (known w') <= length (known w) + length (run_params [e]) /\
  forall ps, In ps (known w') -> In ps (known w) \/ In ps (run_params [e]).
Proof.
  intros Hwf Hstep. destruct e as [ps|p o].
  - destruct (Z.eq_dec (isRunning (state w)) 0%Z) as [Hidle|Hbusy].
    + rewrite (step_run_idle _ _ Hwf Hidle) in Hstep. injection Hstep as <-.
      unfold known, invoked. simpl. rewrite map_app. simpl. split.
      * rewrite !length_app. simpl. lia.
      * intros x Hx. rewrite !in_app_iff in *. simpl in *. tauto.
    + rewrite (step_run_busy _ _ Hwf Hbusy) in Hstep. injection Hstep as <-.
      unfold known, invoked. simpl. split.
      * rewrite !length_app. simpl. lia.
      * intros x Hx. rewrite !in_app_iff in *. simpl in *. tauto.
  - destruct (in_flight p w) eqn:Hfl.
    + destruct o as [v|e].
      * destruct (step_settle_fulfilled w p v Hwf Hfl) as (tl & Hl & Heq).
        rewrite Heq in Hstep. injection Hstep as <-.
        unfold known, invoked, after_fulfilled.
        destruct (trigger w) as [c|]; simpl; split.
        -- rewrite map_app. simpl. rewrite app_nil_r. lia.
        -- intros x Hx. rewrite map_app, app_nil_r in Hx. simpl in Hx. now left.
        -- lia.
        -- intros x Hx. now left.
      * rewrite (step_settle_rejected _ _ _ Hwf Hfl) in Hstep.
        injection Hstep as <-. unfold known, invoked. simpl. split; [lia|].
        intros x Hx. now left.
    + unfold step, apply_event in Hstep. rewrite Hfl in Hstep. discriminate.
Qed.

Lemma known_steps (es : list event) :
  forall w w',
    wf w ->
    steps es w = Some w' ->
    length (known w') <= length (known w) + length (run_params es) /\
    forall ps, In ps (known w') -> In ps (known w) \/ In ps (run_params es).
Proof.
  induction es as [|e es IH]; intros w w' Hwf Hs; simpl in Hs.
  - injection Hs as <-. simpl. split; [lia | intros ps H; now left].
  - destruct (step e w) as [w1|] eqn:Hstep; [|discriminate].
    destruct (known_step e w w1 Hwf Hstep) as [Hlen Hin].
    destruct (IH w1 w' (wf_step _ _ _ Hwf Hstep) Hs) as [Hlen' Hin'].
    assert (run_params (e :: es) = run_params [e] ++ run_params es) as ->
      by (destruct e; reflexivity).
    split.
    + rewrite length_app. lia.
    + intros ps Hps. rewrite in_app_iff.
      destruct (Hin' ps Hps) as [H|H]; [|tauto].
      destruct (Hin ps H); tauto.
Qed.

(** ** Properties *)

(** X1: the gate of line 17 keeps the invocations of the command strictly
    one after the other: in every reachable world either nothing is in
    flight, or exactly one promise of the command is pending, and it is
    the one of the latest invocation. *)
Theorem ladder_one_invocation_at_a_time (w : world) :
  reachable w ->
  (isRunning (state w) = 0%Z /\ forall p, in_flight p w = false) \/
  (isRunning (state w) = 1%Z /\
   exists cs ps p,
     calls w = cs ++ [(ps, p)] /\
     in_flight p w = true /\
     forall p', in_flight p' w = true -> p' = p).
Proof.
  intros Hr. apply wf_reachable in Hr.
  destruct (wf_shape w Hr) as [[Hidle [_ Hnone]]|[Hone Hshape]].
  - left. now split.
  - right. split; [exact Hone|].
    destruct Hshape as (cs & ps & p & tl & Hcalls & Hl & _ & _ & Huniq).
    exists cs, ps, p. split; [exact Hcalls|]. split; [|exact Huniq].
    eapply (in_flight_intro _ _ ps); [|exact Hl].
    rewrite Hcalls. apply in_or_app. right. now left.
Qed.

Lemma ladder_one_invocation_at_a_time_witness :
  reachable one_queued /\
  ((isRunning (state one_queued) = 0%Z /\ forall p, in_flight p one_queued = false) \/
   (isRunning (state one_queued) = 1%Z /\
    exists cs ps p,
      calls one_queued = cs ++ [(ps, p)] /\
      in_flight p one_queued = true /\
      forall p', in_flight p' one_queued = true -> p' = p)).
Proof.
  split; [exact one_queued_reachable|].
  apply (ladder_one_invocation_at_a_time one_queued). exact one_queued_reachable.
Defined.

(** X2: the executor never invents or repeats work.  After any trace
    from the initial world, the parameters it has invoked the command
    with, together with the ones waiting in the slot, were all passed to
    some [run] call of the trace, and there are no more of them than
    [run] calls; so the command is invoked at most once per call. *)
Theorem ladder_invocations_come_from_calls (es : list event) (w : world) :
  steps es init = Some w ->
  length (known w) <= length (run_params es) /\
  length (invoked w) <= length (run_params es) /\
  forall ps, In ps (known w) -> In ps (run_params es).
Proof.
  intros Hs. destruct (known_steps es init w wf_init Hs) as [Hlen Hin].
  simpl in Hlen. split; [exact Hlen|]. split.
  - unfold known in Hlen. rewrite length_app in Hlen. lia.
  - intros ps Hps. destruct (Hin ps Hps) as [[]|H]. exact H.
Qed.

Lemma ladder_invocations_come_from_calls_witness :
  steps [Run [1]; Run [2]] init = Some one_queued /\
  length (known one_queued) <= length (run_params [Run [1]; Run [2]]) /\
  length (invoked one_queued) <= length (run_params [Run [1]; Run [2]]) /\
  forall ps, In ps (known one_queued) -> In ps (run_params [Run [1]; Run [2]]).
Proof.
  split; [vm_compute; reflexivity|].
  apply (ladder_invocations_come_from_calls [Run [1]; Run [2]] one_queued).
  vm_compute. reflexivity.
Defined.

(** X3: a queued call that survives in the slot is answered by its
    follow-up.  When the invocation in flight is fulfilled the follow-up
    starts, and the promise handed to the queued caller is still pending;
    when the follow-up is fulfilled with a value, that promise is
    fulfilled with the same value, and keeps it. *)
Theorem ladder_queued_caller_gets_follow_up_value
        (w : world) (p : pid) (c : closure) (v v' : Value) :
  reachable w ->
  in_flight p w = true ->
  trigger w = Some c ->
  exists w1 w2,
    step (Settle p (Fulfilled v)) w = Some w1 /\
    invoked w1 = invoked w ++ [c_params c] /\
    in_flight (length (heap w)) w1 = true /\
    status_of (c_resolve c) w1 = Some Pending /\
    step (Settle (length (heap w)) (Fulfilled v')) w1 = Some w2 /\
    invoked w2 = invoked w1 /\
    status_of (c_resolve c) w2 = Some (Settled (Fulfilled v')) /\
    forall es w', steps es w2 = Some w' ->
                  status_of (c_resolve c) w' = Some (Settled (Fulfilled v')).
Proof.
  intros Hr Hfl Ht. pose proof (refs_ok_reachable _ Hr) as Hok.
  apply wf_reachable in Hr.
  destruct (follow_up_started w p c v Hr Hok Hfl Ht)
    as (w1 & S1 & Hwf1 & Hok1 & Ht1 & _ & Hc1 & Hn & Hfl1 & _ & Ho).
  destruct (follow_up_fulfilled w1 _ (c_resolve c) v' Hwf1 Hfl1 Ht1 Hn Ho)
    as (w2 & S2 & _ & _ & _ & Hc2 & Hq2).
  exists w1, w2.
  split; [exact S1|].
  split; [unfold invoked; now rewrite Hc1, map_app|].
  split; [exact Hfl1|].
  split.
  { destruct Ho as [_ Hp]. apply is_pending_lookup in Hp as [rs Hl].
    unfold status_of. exact (status_of_cell _ _ _ Hl). }
  split; [exact S2|].
  split; [unfold invoked; now rewrite Hc2|].
  split; [exact Hq2|].
  intros es w' Hs. exact (settled_steps _ _ es w2 w' Hq2 Hs).
Qed.

Lemma ladder_queued_caller_gets_follow_up_value_witness :
  reachable one_queued /\
  in_flight 0 one_queued = true /\
  trigger one_queued = Some (Closure [2] 1) /\
  exists w1 w2,
    step (Settle 0 (Fulfilled 5)) one_queued = Some w1 /\
    invoked w1 = invoked one_queued ++ [c_params (Closure [2] 1)] /\
    in_flight (length (heap one_queued)) w1 = true /\
    status_of (c_resolve (Closure [2] 1)) w1 = Some Pending /\
    step (Settle (length (heap one_queued)) (Fulfilled 6)) w1 = Some w2 /\
    invoked w2 = invoked w1 /\
    status_of (c_resolve (Closure [2] 1)) w2 = Some (Settled (Fulfilled 6)) /\
    forall es w', steps es w2 = Some w' ->
                  status_of (c_resolve (Closure [2] 1)) w' = Some (Settled (Fulfilled 6)).
Proof.
  split; [exact one_queued_reachable|]. split; [reflexivity|].
  split; [reflexivity|].
  apply (ladder_queued_caller_gets_follow_up_value one_queued 0 (Closure [2] 1) 5 6);
    [exact one_queued_reachable | reflexivity | reflexivity].
Defined.

(** X4: the promise returned by a [run] call on an idle executor is the
    command's own, so it settles exactly as the invocation does, with the
    value or with the error, and keeps that settlement: on this path a
    failure does reach the caller. *)
Theorem ladder_idle_caller_gets_command_outcome
        (w : world) (ps : Params) (o : settlement) :
  reachable w ->
  isRunning (state w) = 0%Z ->
  exists w1 w2,
    step (Run ps) w = Some w1 /\
    in_flight (fst (run ps w)) w1 = true /\
    step (Settle (fst (run ps w)) o) w1 = Some w2 /\
    status_of (fst (run ps w)) w2 = Some (Settled o) /\
    forall es w', steps es w2 = Some w' ->
                  status_of (fst (run ps w)) w' = Some (Settled o).
Proof.
  intros Hr Hidle. apply wf_reachable in Hr.
  destruct (step_run_started w ps Hr Hidle)
    as (w1 & S1 & Hwf1 & Hfl1 & _ & _ & Hh1).
  rewrite (run_idle_eq _ _ Hidle). simpl.
  set (p := length (heap w)) in *.
  assert (p < length (heap w1)) as Hp.
  { rewrite Hh1, length_app. simpl. unfold p. lia. }
  assert (exists w2, step (Settle p o) w1 = Some w2 /\
                     status_of p w2 = Some (Settled o)) as (w2 & S2 & Hst).
  { destruct o as [v|e].
    - destruct (step_settle_fulfilled w1 p v Hwf1 Hfl1) as (tl & _ & Heq).
      eexists. split; [exact Heq|]. now apply status_after_fulfilled.
    - eexists. split; [exact (step_settle_rejected _ _ e Hwf1 Hfl1)|].
      unfold status_of, after_rejected. simpl.
      apply (status_of_cell _ _ (Cell (Settled (Rejected e)) [])).
      now apply list_lookup_insert_eq. }
  exists w1, w2. split; [exact S1|]. split; [exact Hfl1|].
  split; [exact S2|]. split; [exact Hst|].
  intros es w' Hs. exact (settled_steps _ _ es w2 w' Hst Hs).
Qed.

Lemma ladder_idle_caller_gets_command_outcome_witness :
  reachable init /\
  isRunning (state init) = 0%Z /\
  exists w1 w2,
    step (Run [1]) init = Some w1 /\
    in_flight (fst (run [1] init)) w1 = true /\
    step (Settle (fst (run [1] init)) (Rejected 7)) w1 = Some w2 /\
    status_of (fst (run [1] init)) w2 = Some (Settled (Rejected 7)) /\
    forall es w', steps es w2 = Some w' ->
                  status_of (fst (run [1] init)) w' = Some (Settled (Rejected 7)).
Proof.
  split; [exact reachable_init|]. split; [reflexivity|].
  apply (ladder_idle_caller_gets_command_outcome init [1] (Rejected 7));
    [exact reachable_init | reflexivity].
Defined.

(** X5: with nothing in the slot, the settlement of the invocation in
    flight, a fulfilment or a rejection alike, starts nothing and leaves
    the executor idle with an empty slot; the next [run] call then starts
    its invocation at once.  A failure does not wedge the executor. *)
Theorem ladder_idle_again_when_nothing_queued
        (w : world) (p : pid) (o : settlement) (ps : Params) :
  reachable w ->
  in_flight p w = true ->
  trigger w = None ->
  exists w1 w2,
    step (Settle p o) w = Some w1 /\
    isRunning (state w1) = 0%Z /\
    trigger w1 = None /\
    invoked w1 = invoked w /\
    (forall p', in_flight p' w1 = false) /\
    step (Run ps) w1 = Some w2 /\
    invoked w2 = invoked w ++ [ps] /\
    in_flight (fst (run ps w1)) w2 = true.
Proof.
  intros Hr Hfl Ht. apply wf_reachable in Hr.
  destruct (busy_in_flight _ _ Hr Hfl) as (Hone & _).
  assert (exists w1, step (Settle p o) w = Some w1 /\ wf w1 /\
                     isRunning (state w1) = 0%Z /\ trigger w1 = None /\
                     calls w1 = calls w) as (w1 & S1 & Hwf1 & Hidle & Ht1 & Hc1).
  { destruct o as [v|e].
    - destruct (step_settle_fulfilled w p v Hr Hfl) as (tl & Hl & Heq).
      exists (after_fulfilled p v tl w).
      split; [exact Heq|]. split; [now apply wf_after_fulfilled|].
      unfold after_fulfilled. rewrite Ht. simpl.
      split; [lia|]. now split.
    - exists (after_rejected p e w).
      split; [now apply step_settle_rejected|].
      split; [now apply wf_after_rejected|].
      simpl. split; [lia|]. now split. }
  destruct (step_run_started w1 ps Hwf1 Hidle)
    as (w2 & S2 & _ & Hfl2 & Hc2 & _ & _).
  exists w1, w2.
  split; [exact S1|]. split; [exact Hidle|]. split; [exact Ht1|].
  split; [unfold invoked; now rewrite Hc1|].
  split.
  { destruct (wf_shape w1 Hwf1) as [[_ [_ Hnone]]|[Hb _]]; [exact Hnone | lia]. }
  split; [exact S2|].
  split; [unfold invoked; now rewrite Hc2, Hc1, map_app|].
  rewrite (run_idle_eq _ _ Hidle). exact Hfl2.
Qed.

Lemma ladder_idle_again_when_nothing_queued_witness :
  reachable (snd (run [1] init)) /\
  in_flight 0 (snd (run [1] init)) = true /\
  trigger (snd (run [1] init)) = None /\
  exists w1 w2,
    step (Settle 0 (Rejected 7)) (snd (run [1] init)) = Some w1 /\
    isRunning (state w1) = 0%Z /\
    trigger w1 = None /\
    invoked w1 = invoked (snd (run [1] init)) /\
    (forall p', in_flight p' w1 = false) /\
    step (Run [2]) w1 = Some w2 /\
    invoked w2 = invoked (snd (run [1] init)) ++ [[2]] /\
    in_flight (fst (run [2] w1)) w2 = true.
Proof.
  assert (reachable (snd (run [1] init))) as Hr.
  { exists [Run [1]]. vm_compute. reflexivity. }
  split; [exact Hr|]. split; [reflexivity|]. split; [reflexivity|].
  apply (ladder_idle_again_when_nothing_queued (snd (run [1] init)) 0 (Rejected 7) [2]);
    [exact Hr | reflexivity | reflexivity].
Defined.

(** X6: however many [run] calls arrive while one invocation is in flight,
    none of them starts anything and only the last one is kept; when the
    invocation is fulfilled exactly one follow-up starts, with the
    parameters of the last call, and it is in flight in its turn, so the
    ladder goes on the same way. *)
Theorem ladder_any_number_of_calls_coalesce
        (w : world) (p : pid) (qs : list Params) (v : Value) :
  reachable w ->
  in_flight p w = true ->
  qs <> [] ->
  exists w1 w2,
    steps (map Run qs) w = Some w1 /\
    invoked w1 = invoked w /\
    c_params <$> trigger w1 = Some (last qs []) /\
    in_flight p w1 = true /\
    step (Settle p (Fulfilled v)) w1 = Some w2 /\
    invoked w2 = invoked w ++ [last qs []] /\
    trigger w2 = None /\
    isRunning (state w2) = 1%Z /\
    in_flight (length (heap w1)) w2 = true.
Proof.
  intros Hr Hfl Hqs. pose proof (wf_reachable _ Hr) as Hwf.
  destruct (queue_many p qs w Hwf Hfl) as (w1 & Ss & Hwf1 & Hfl1 & Hc1 & Ht1).
  assert (reachable w1) as Hr1.
  { destruct Hr as [es0 H0]. exists (es0 ++ map Run qs).
    clear - H0 Ss. revert H0. generalize init.
    induction es0 as [|e es0 IH]; intros w0 H0; simpl in *.
    - injection H0 as ->. exact Ss.
    - destruct (step e w0) as [w'|]; [|discriminate]. now apply IH. }
  pose proof (refs_ok_reachable _ Hr1) as Hok1.
  destruct qs as [|a qs]; [contradiction|].
  destruct (trigger w1) as [c|] eqn:Ht; [|discriminate].
  assert (c_params c = last (a :: qs) []) as Hlast
    by (cbn in Ht1; now injection Ht1).
  destruct (follow_up_started w1 p c v Hwf1 Hok1 Hfl1 Ht)
    as (w2 & S2 & _ & _ & Ht2 & Hone2 & Hc2 & _ & Hfl2 & _).
  exists w1, w2.
  split; [exact Ss|].
  split; [unfold invoked; now rewrite Hc1|].
  split; [rewrite Ht; exact Ht1|].
  split; [exact Hfl1|]. split; [exact S2|].
  split; [unfold invoked; now rewrite Hc2, Hc1, map_app, <- Hlast|].
  split; [exact Ht2|]. split; [exact Hone2 | exact Hfl2].
Qed.

Lemma ladder_any_number_of_calls_coalesce_witness :
  reachable one_queued /\
  in_flight 0 one_queued = true /\
  [[3]; [4]; [5]; [6]] <> [] /\
  exists w1 w2,
    steps (map Run [[3]; [4]; [5]; [6]]) one_queued = Some w1 /\
    invoked w1 = invoked one_queued /\
    c_params <$> trigger w1 = Some (last [[3]; [4]; [5]; [6]] []) /\
    in_flight 0 w1 = true /\
    step (Settle 0 (Fulfilled 9)) w1 = Some w2 /\
    invoked w2 = invoked one_queued ++ [last [[3]; [4]; [5]; [6]] []] /\
    trigger w2 = None /\
    isRunning (state w2) = 1%Z /\
    in_flight (length (heap w1)) w2 = true.
Proof.
  split; [exact one_queued_reachable|]. split; [reflexivity|].
  split; [discriminate|].
  apply (ladder_any_number_of_calls_coalesce one_queued 0 [[3]; [4]; [5]; [6]] 9);
    [exact one_queued_reachable | reflexivity | discriminate].
Defined.

(** X7: a call queued while an invocation is in flight replaces whatever
    closure the slot holds, be it the one of an earlier queued call or a
    stale one that a rejection left behind (lines 26-28 assign the slot
    without looking at it): the promise of the replaced caller stays
    pending whatever happens afterwards. *)
Theorem ladder_queued_call_drops_slot_content
        (w : world) (p : pid) (c : closure) (ps : Params) :
  reachable w ->
  in_flight p w = true ->
  trigger w = Some c ->
  exists w1,
    step (Run ps) w = Some w1 /\
    trigger w1 = Some (Closure ps (fst (run ps w))) /\
    fst (run ps w) <> c_resolve c /\
    invoked w1 = invoked w /\
    forall es w', steps es w1 = Some w' ->
                  status_of (c_resolve c) w' = Some Pending.
Proof.
  intros Hr Hfl Ht. pose proof (refs_ok_reachable _ Hr) as Hok.
  apply wf_reachable in Hr.
  pose proof (busy_of_in_flight _ _ Hr Hfl) as Hbusy.
  destruct (step_run_queued w p ps Hr Hfl)
    as (w1 & S1 & Hwf1 & _ & Hc1 & _ & Ht1 & Hh1).
  pose proof (slot_outer w Hok c Ht) as Ho.
  pose proof (outer_below _ _ Ho) as Hq.
  exists w1. rewrite (run_busy_eq _ _ Hbusy). simpl.
  split; [exact S1|]. split; [exact Ht1|]. split; [lia|].
  split; [unfold invoked; now rewrite Hc1|].
  intros es w' Hs. apply orphan_pending.
  apply (orphan_steps _ es w1 w'); [|exact Hs].
  destruct Ho as [Hcp Hpend].
  repeat split.
  - apply is_pending_lookup in Hpend as [rs Hl]. apply is_pending_lookup.
    exists rs. rewrite Hh1. now rewrite lookup_old.
  - unfold is_command_promise in *. now rewrite Hc1.
  - intros c' Hc'. rewrite Ht1 in Hc'. injection Hc' as <-. simpl. lia.
  - rewrite Hh1. apply Forall_app. split.
    + apply Forall_lookup. intros i x Hi Hin.
      destruct x as [[|o] rs].
      * destruct (tail_outer w Hok i (c_resolve c) rs Hi Hin) as [_ Hdiff].
        exact (Hdiff c Ht eq_refl).
      * destruct (wf_shape w Hr) as [[_ [Hall _]]|[_ Hshape]].
        -- rewrite Forall_lookup in Hall. specialize (Hall _ _ Hi).
           unfold quiet in Hall. simpl in *. subst rs. destruct Hin.
        -- destruct Hshape as (cs & ps0 & p0 & tl & _ & Hp0 & _ & Hothers & _).
           destruct (Nat.eq_dec i p0) as [Heq|Hne].
           ++ subst i. unfold pid in *. rewrite Hp0 in Hi. discriminate.
           ++ specialize (Hothers _ _ Hne Hi). unfold quiet in Hothers.
              simpl in *. subst rs. destruct Hin.
    + constructor; [simpl; tauto | constructor].
  - rewrite (wf_mq w1 Hwf1). constructor.
Qed.

Lemma stale_queued_reachable : reachable stale_queued.
Proof.
  exists [Run [1]; Run [2]; Settle 0 (Rejected 7); Run [3]].
  vm_compute. reflexivity.
Defined.

Lemma ladder_queued_call_drops_slot_content_witness :
  reachable stale_queued /\
  in_flight 2 stale_queued = true /\
  trigger stale_queued = Some (Closure [2] 1) /\
  exists w1,
    step (Run [4]) stale_queued = Some w1 /\
    trigger w1 = Some (Closure [4] (fst (run [4] stale_queued))) /\
    fst (run [4] stale_queued) <> c_resolve (Closure [2] 1) /\
    invoked w1 = invoked stale_queued /\
    forall es w', steps es w1 = Some w' ->
                  status_of (c_resolve (Closure [2] 1)) w' = Some Pending.
Proof.
  split; [exact stale_queued_reachable|]. split; [reflexivity|].
  split; [reflexivity|].
  apply (ladder_queued_call_drops_slot_content stale_queued 2 (Closure [2] 1) [4]);
    [exact stale_queued_reachable | reflexivity | reflexivity].
Defined.

(** ** No rejection for a queued caller *)

Lemma status_insert (h : list cell) (p q : pid) (c : cell) (st : status) :
  c_status <$> <[p := c]> h !! q = Some st ->
  (q = p /\ st = c_status c) \/ (q <> p /\ c_status <$> h !! q = Some st).
Proof.
  intros H. destruct (Nat.eq_dec q p) as [Heq|Hne].
  - left. split; [exact Heq|]. subst q.
    destruct (Nat.lt_ge_cases p (length h)) as [Hlt|Hge].
    + rewrite list_lookup_insert_eq in H by exact Hlt. simpl in H. congruence.
    + rewrite list_insert_ge in H by exact Hge.
      rewrite lookup_ge_None_2 in H by exact Hge. discriminate.
  - right. split; [exact Hne|].
    rewrite list_lookup_insert_ne in H by congruence. exact H.
Qed.

Lemma status_snoc (h : list cell) (q : pid) (c : cell) (st : status) :
  c_status <$> (h ++ [c]) !! q = Some st ->
  c_status <$> h !! q = Some st \/ st = c_status c.
Proof.
  intros H. destruct ((h ++ [c]) !! q) as [x|] eqn:E; [|discriminate].
  apply lookup_snoc_inv in E as [[_ E]|[_ ->]].
  - left. now rewrite E.
  - right. simpl in H. congruence.
Qed.

Lemma rejections_then (p : pid) (r : reaction) (w : world) :
  rejections_are_the_commands w -> rejections_are_the_commands (then_ p r w).
Proof.
  intros Hw q e Hq. unfold then_ in *.
  destruct (heap w !! p) as [[[|o] rs]|] eqn:E; try exact (Hw q e Hq).
  unfold status_of in Hq. simpl in Hq.
  apply status_insert in Hq as [[_ Hq]|[_ Hq]]; [discriminate|].
  exact (Hw q e Hq).
Qed.

Lemma rejections_settle (p : pid) (o : settlement) (w : world) :
  rejections_are_the_commands w ->
  (forall e, o = Rejected e -> is_command_promise p w = true) ->
  rejections_are_the_commands (settle_promise p o w).
Proof.
  intros Hw Ho q e Hq. unfold settle_promise in *.
  destruct (heap w !! p) as [[[|o'] rs]|] eqn:E; try exact (Hw q e Hq).
  unfold status_of in Hq. simpl in Hq.
  apply status_insert in Hq as [[-> Hq]|[_ Hq]].
  - simpl in Hq. injection Hq as <-. exact (Ho e eq_refl).
  - exact (Hw q e Hq).
Qed.

Lemma rejections_run (ps : Params) (w : world) :
  rejections_are_the_commands w -> rejections_are_the_commands (snd (run ps w)).
Proof.
  intros Hw q e Hq.
  destruct (Z.eq_dec (isRunning (state w)) 0%Z) as [Hidle|Hbusy].
  - rewrite (run_idle_eq _ _ Hidle) in *. unfold status_of in Hq. simpl in Hq.
    apply status_snoc in Hq as [Hq|Hq]; [|discriminate].
    unfold is_command_promise. simpl. rewrite existsb_app.
    apply orb_true_intro. left. exact (Hw q e Hq).
  - rewrite (run_busy_eq _ _ Hbusy) in *. unfold status_of in Hq. simpl in Hq.
    apply status_snoc in Hq as [Hq|Hq]; [|discriminate].
    exact (Hw q e Hq).
Qed.

Lemma rejections_run_job (j : job) (w : world) :
  rejections_are_the_commands w -> rejections_are_the_commands (run_job j w).
Proof.
  intros Hw. destruct j as [[| |q'] [v|e]]; simpl; try exact Hw.
  - rewrite ladder_then_eq. unfold clear_trigger, call_trigger.
    destruct (trigger w) as [c|]; [|exact Hw].
    unfold fire. pose proof (rejections_run (c_params c) w Hw) as Hr.
    destruct (run (c_params c) w) as [r w1]. simpl in Hr.
    exact (rejections_then r _ w1 Hr).
  - apply rejections_settle; [exact Hw | discriminate].
Qed.

Lemma rejections_drain (fuel : nat) :
  forall w w',
    rejections_are_the_commands w ->
    drain fuel w = Some w' ->
    rejections_are_the_commands w'.
Proof.
  induction fuel as [|fuel IH]; intros w w' Hw Hd; simpl in Hd.
  - destruct (mq w); [now injection Hd as <- | discriminate].
  - destruct (mq w) as [|j js] eqn:Hmq; [now injection Hd as <-|].
    eapply IH; [|exact Hd]. apply rejections_run_job. exact Hw.
Qed.

Lemma rejections_step (e : event) (w w' : world) :
  rejections_are_the_commands w ->
  step e w = Some w' ->
  rejections_are_the_commands w'.
Proof.
  intros Hw Hs. unfold step in Hs.
  destruct (apply_event e w) as [w1|] eqn:Ha; [|discriminate].
  eapply rejections_drain; [|exact Hs].
  destruct e as [ps|p o]; simpl in Ha.
  - injection Ha as <-. now apply rejections_run.
  - destruct (in_flight p w) eqn:Hfl; [|discriminate]. injection Ha as <-.
    apply rejections_settle; [exact Hw|]. intros _ _.
    unfold in_flight in Hfl. now apply andb_true_iff in Hfl as [Hc _].
Qed.

(** X11: a promise that [run] created itself for a queued caller is never
    rejected: in every reachable world a rejected promise is one that the
    command returned.  Whatever happens to the follow-up, a caller that
    was queued sees a fulfilment or nothing. *)
Theorem ladder_never_rejects_queued_caller (w : world) (q : pid) (e : Value) :
  reachable w ->
  status_of q w = Some (Settled (Rejected e)) ->
  is_command_promise q w = true.
Proof.
  intros [es Hes]. revert q e.
  change (rejections_are_the_commands w).
  assert (forall w0, rejections_are_the_commands w0 ->
                     steps es w0 = Some w -> rejections_are_the_commands w) as Hgen.
  { clear Hes. induction es as [|ev es IH]; intros w0 H0 Hs; simpl in Hs.
    - now injection Hs as <-.
    - destruct (step ev w0) as [w1|] eqn:Hstep; [|discriminate].
      eapply IH; [|exact Hs]. eapply rejections_step; [exact H0 | exact Hstep]. }
  apply (Hgen init); [|exact Hes].
  intros q e Hq. unfold status_of in Hq. destruct q; discriminate.
Qed.

Lemma ladder_never_rejects_queued_caller_witness :
  reachable stale_queued /\
  status_of 0 stale_queued = Some (Settled (Rejected 7)) /\
  is_command_promise 0 stale_queued = true.
Proof.
  split; [exact stale_queued_reachable|]. split; [reflexivity|].
  apply (ladder_never_rejects_queued_caller stale_queued 0 7);
    [exact stale_queued_reachable | reflexivity].
Defined.

(** * InfiniteLoader: the tests, for every size *)

Module LoaderMore.
Import Loader LoaderRuns.

Lemma firstn_seq_min (n a m : nat) :
  firstn n (seq a m) = seq a (Nat.min n m).
Proof.
  revert a m. induction n as [|n IH]; intros a m; [reflexivity|].
  destruct m as [|m]; [reflexivity|]. simpl. now rewrite IH.
Qed.

Lemma pointer_request_eq (total ptr per : nat) :
  pointer_request total ptr per = seq ptr (Nat.min per (total - ptr)).
Proof.
  unfold pointer_request. now rewrite skipn_seq, firstn_seq_min.
Qed.

(** A round that the source answers with a full page. *)
Lemma round_full (total ptr per : nat) (reqs : list (nat * nat)) :
  ptr + per <= total ->
  round total (Loader_ (seq 0 ptr) ptr per false Idle false reqs) =
  Some (Loader_ (seq 0 (ptr + per)) (ptr + per) per false Idle false
                (reqs ++ [(ptr, per)])).
Proof.
  intros Hle. unfold round, next, serve, served. simpl.
  rewrite last_last, pointer_request_eq.
  replace (Nat.min per (total - ptr)) with per by lia.
  unfold step, settle. simpl.
  unfold finish, apply_page, request. simpl.
  rewrite length_seq, Nat.ltb_irrefl. now rewrite <- seq_app.
Qed.

(** A round that the source answers with the short last page. *)
Lemma round_short (total ptr per : nat) (reqs : list (nat * nat)) :
  ptr <= total ->
  total < ptr + per ->
  round total (Loader_ (seq 0 ptr) ptr per false Idle false reqs) =
  Some (Loader_ (seq 0 total) total per true Idle false (reqs ++ [(ptr, per)])).
Proof.
  intros Hle Hlt. unfold round, next, serve, served. simpl.
  rewrite last_last, pointer_request_eq.
  replace (Nat.min per (total - ptr)) with (total - ptr) by lia.
  unfold step, settle. simpl.
  unfold finish, apply_page, request. simpl. rewrite length_seq.
  destruct (Nat.ltb_spec (total - ptr) per) as [_|Hge]; [|lia].
  rewrite <- seq_app.
  replace (ptr + (total - ptr)) with total by lia. reflexivity.
Qed.

Lemma rounds_full (total per k : nat) :
  forall j reqs,
    (j + k) * per <= total ->
    rounds total k (Loader_ (seq 0 (j * per)) (j * per) per false Idle false reqs) =
    Some (Loader_ (seq 0 ((j + k) * per)) ((j + k) * per) per false Idle false
                  (reqs ++ map (fun i => (i * per, per)) (seq j k))).
Proof.
  induction k as [|k IH]; intros j reqs Hle.
  - simpl. now rewrite Nat.add_0_r, app_nil_r.
  - simpl rounds. rewrite round_full by nia.
    replace (j * per + per) with (S j * per) by lia.
    rewrite IH by nia.
    replace (S j + k) with (j + S k) by lia.
    simpl. now rewrite <- app_assoc.
Qed.

Lemma rounds_snoc (total k : nat) :
  forall l l1,
    rounds total k l = Some l1 ->
    rounds total (S k) l = round total l1.
Proof.
  induction k as [|k IH]; intros l l1 H.
  - simpl in H. injection H as <-. simpl. now destruct (round total l).
  - simpl in H. destruct (round total l) as [l0|] eqn:E; [|discriminate].
    change (rounds total (S (S k)) l)
      with (match round total l with
            | Some l2 => rounds total (S k) l2
            | None => None
            end).
    rewrite E. now apply IH.
Qed.

(** X8: the test 'loads list' for every size.  As long as the backing
    source still holds a full page for each of them, [k] rounds of
    [next()] request the pages at 0, perStep, 2 perStep, ... in turn and
    [items] holds the first [k * perStep] elements of the source, in
    order; the loader is not finished, even when the source is exactly
    exhausted. *)
Theorem loader_loads_pages_in_order (total per k : nat) :
  k * per <= total ->
  exists l,
    rounds total k (create per) = Some l /\
    items l = seq 0 (k * per) /\
    pointer l = k * per /\
    isFinished l = false /\
    isRunning l = false /\
    requests l = map (fun i => (i * per, per)) (seq 0 k).
Proof.
  intros Hle. eexists. split.
  - exact (rounds_full total per k 0 [] Hle).
  - repeat split.
Qed.

Lemma loader_loads_pages_in_order_witness :
  2 * 10 <= 100 /\
  exists l,
    rounds 100 2 (create 10) = Some l /\
    items l = seq 0 (2 * 10) /\
    pointer l = 2 * 10 /\
    isFinished l = false /\
    isRunning l = false /\
    requests l = map (fun i => (i * 10, 10)) (seq 0 2).
Proof.
  split; [lia|]. apply (loader_loads_pages_in_order 100 10 2). lia.
Defined.

(** X9: with a positive page size, [total / perStep + 1] rounds load the
    whole backing source, in order; the last page is the short one (empty
    when the size divides the total) and marks the loader finished, after
    which [next()] requests nothing more, however often it is called. *)
Theorem loader_stops_after_short_page (total per : nat) :
  0 < per ->
  exists l,
    rounds total (S (total / per)) (create per) = Some l /\
    items l = seq 0 total /\
    pointer l = total /\
    isFinished l = true /\
    length (requests l) = S (total / per) /\
    forall n, Nat.iter n next l = l.
Proof.
  intros Hper.
  assert (total / per * per <= total) as Hle
    by (rewrite Nat.mul_comm; apply Nat.Div0.mul_div_le).
  assert (total < total / per * per + per) as Hlt.
  { pose proof (Nat.mul_succ_div_gt total per ltac:(lia)). lia. }
  pose proof (rounds_full total per (total / per) 0 [] Hle) as Hfull.
  simpl in Hfull.
  eexists. split.
  - unfold create. erewrite (rounds_snoc total (total / per)) by exact Hfull.
    now apply round_short.
  - simpl. repeat split.
    + rewrite length_app, length_map, length_seq. simpl. lia.
    + intros n. induction n as [|n IH]; [reflexivity|]. simpl. now rewrite IH.
Qed.

Lemma loader_stops_after_short_page_witness :
  0 < 10 /\
  exists l,
    rounds 25 (S (25 / 10)) (create 10) = Some l /\
    items l = seq 0 25 /\
    pointer l = 25 /\
    isFinished l = true /\
    length (requests l) = S (25 / 10) /\
    forall n, Nat.iter n next l = l.
Proof.
  split; [lia|]. apply (loader_stops_after_short_page 25 10). lia.
Defined.

Lemma two_pages_loaded_by_rounds :
  rounds 100 2 (create 10) = Some two_pages_loaded.
Proof. vm_compute. reflexivity. Qed.

(** X10: the outcome of the test 'refreshes' for every idle loader,
    whatever it has loaded.  [refresh()] sends one request, at pointer 0,
    and the loader is refreshing; once the backing source has answered,
    [items] is the first page alone, the items loaded before are gone,
    the pointer stands behind that page, and the loader is finished
    exactly when the source is shorter than a page. *)
Theorem loader_refresh_reloads_first_page (total : nat) (l : loader) :
  phase_of l = Idle ->
  pendingRefresh l = false ->
  isRefreshing (refresh l) = true /\
  requests (refresh l) = requests l ++ [(0, perStep l)] /\
  exists l',
    refresh_round total l = Some l' /\
    items l' = seq 0 (Nat.min (perStep l) total) /\
    pointer l' = Nat.min (perStep l) total /\
    (isFinished l' = true <-> total < perStep l) /\
    requests l' = requests l ++ [(0, perStep l)] /\
    isRunning l' = false /\
    isRefreshing l' = false.
Proof.
  intros Hph Hpend.
  destruct l as [it ptr per fin ph pend reqs]. simpl in *. subst ph pend.
  unfold refresh. simpl. split; [reflexivity|]. split; [reflexivity|].
  unfold refresh_round, refresh, serve, served. simpl.
  rewrite last_last, pointer_request_eq, Nat.sub_0_r.
  unfold step, settle. simpl.
  unfold finish, apply_page, request. simpl. rewrite length_seq.
  eexists. split; [reflexivity|]. simpl.
  split; [reflexivity|]. split; [reflexivity|].
  split; [|repeat split].
  destruct (Nat.ltb_spec (Nat.min per total) per); split;
    first [discriminate | lia | reflexivity | (intros; lia) ].
Qed.

Lemma loader_refresh_reloads_first_page_witness :
  phase_of two_pages_loaded = Idle /\
  pendingRefresh two_pages_loaded = false /\
  isRefreshing (refresh two_pages_loaded) = true /\
  requests (refresh two_pages_loaded) =
    requests two_pages_loaded ++ [(0, perStep two_pages_loaded)] /\
  exists l',
    refresh_round 100 two_pages_loaded = Some l' /\
    items l' = seq 0 (Nat.min (perStep two_pages_loaded) 100) /\
    pointer l' = Nat.min (perStep two_pages_loaded) 100 /\
    (isFinished l' = true <-> 100 < perStep two_pages_loaded) /\
    requests l' = requests two_pages_loaded ++ [(0, perStep two_pages_loaded)] /\
    isRunning l' = false /\
    isRefreshing l' = false.
Proof.
  split; [reflexivity|]. split; [reflexivity|].
  apply (loader_refresh_reloads_first_page 100 two_pages_loaded); reflexivity.
Defined.

End LoaderMore.
